(** * Batch orchestration hooks: chunkArray, useBatchMutation, useBatchQuery

    A shallow embedding of the batching core of the repository (the hooks
    [useBatchMutation] and [useBatchQuery] with their private [chunkArray])
    and the properties of its chunker, its aggregation step, its progress
    value and its cache keys. *)

From Stdlib Require Import ZArith QArith Qround Qpower List Lia Lqa Bool String.
From Stdlib Require Import Ascii DecimalString.
From Stdlib Require Import Floats.SpecFloat.
From stdpp Require Import base list.
Import ListNotations.

Local Open Scope Z_scope.

(** ** Arrays *)

(** [Array.prototype.slice(start, end)] on an array of length [len]: a
    negative bound counts from the end of the array, every bound is clamped
    to [0, len], and the result is empty when the final bound is not beyond
    the first one. *)
Definition relative_index (len idx : Z) : Z :=
  if idx <? 0 then Z.max (len + idx) 0 else Z.min idx len.

Definition slice {T : Type} (array : list T) (start finish : Z) : list T :=
  let len := Z.of_nat (length array) in
  let k := relative_index len start in
  let final := relative_index len finish in
  take (Z.to_nat (final - k)) (drop (Z.to_nat k) array).

(** ** The chunker *)

(** [chunkArray] of both hooks:
<<
  const chunks = [];
  for (let i = 0; i < array.length; i += size) {
    chunks.push(array.slice(i, i + size));
  }
  return chunks;
>>
    The loop is not structurally recursive (its step is the caller's [size]),
    so it runs on fuel: [None] means that the loop is still running when the
    fuel is used up. *)
Fixpoint chunk_loop {T : Type} (fuel : nat) (array : list T) (size i : Z)
    (chunks : list (list T)) : option (list (list T)) :=
  match fuel with
  | O => None
  | S fuel' =>
      if i <? Z.of_nat (length array)
      then chunk_loop fuel' array size (i + size) (chunks ++ [slice array i (i + size)])
      else Some chunks
  end.

Definition chunkArray {T : Type} (fuel : nat) (array : list T) (size : Z)
    : option (list (list T)) :=
  chunk_loop fuel array size 0 [].

(** The number of iterations the loop needs on [n] elements: ceil(n/size). *)
Definition ceil_div (n size : Z) : Z := (n + size - 1) / size.

(** What the loop appends from position [i] on when [size] is positive, as a
    structural function of the number of chunks left (used to reason about
    the loop; [chunk_loop_run] relates the two). *)
Fixpoint chunks_from {T : Type} (count : nat) (array : list T) (size i : Z)
    : list (list T) :=
  match count with
  | O => []
  | S count' =>
      take (Z.to_nat size) (drop (Z.to_nat i) array)
      :: chunks_from count' array size (i + size)
  end.

(** ** Numbers

    JavaScript numbers are IEEE 754 binary64 values.  The progress value is
    computed with one division, one multiplication and [Math.round]; the
    operands are batch counts, so every intermediate value is zero or lies
    far inside the normal range.  A number is modelled by the rational it
    denotes and every arithmetic operation rounds its exact result to 53
    significant bits, ties to even (the exponent range is not bounded). *)

Definition pow2 (e : Z) : Q := Qpower 2 e.

(** floor(log2 x) of a positive rational. *)
Definition ilog2 (x : Q) : Z :=
  let e0 := Z.log2 (Qnum x) - Z.log2 (Zpos (Qden x)) in
  if Qle_bool (pow2 e0) x then e0 else e0 - 1.

Definition round_half_even (x : Q) : Z :=
  let f := Qfloor x in
  match Qcompare (x - inject_Z f) (1 # 2) with
  | Lt => f
  | Gt => f + 1
  | Eq => if Z.even f then f else f + 1
  end.

(** Nearest binary64 value of a positive rational: the significand
    [x / 2^e] lies in [2^52, 2^53) and is rounded to an integer. *)
Definition round53_pos (x : Q) : Q :=
  let e := ilog2 x - 52 in
  (inject_Z (round_half_even (x * pow2 (- e))) * pow2 e)%Q.

Definition round53 (x : Q) : Q :=
  match Qcompare x 0 with
  | Eq => 0%Q
  | Gt => round53_pos x
  | Lt => Qopp (round53_pos (Qopp x))
  end.

Definition js_div (a b : Q) : Q := round53 (a / b).
Definition js_mul (a b : Q) : Q := round53 (a * b).

(** [Math.round]: the nearest integer, a half goes up. *)
Definition Math_round (x : Q) : Z := Qfloor (x + (1 # 2)).

(** [Math.round((completedCount / total) * 100)].  Both hooks evaluate it
    with a positive [total] only: the mutation returns before it when there
    is no batch, the query guards it with [totalBatches > 0]. *)
Definition progress_of (completedCount total : nat) : Z :=
  Math_round (js_mul (js_div (inject_Z (Z.of_nat completedCount))
                             (inject_Z (Z.of_nat total)))
                     (inject_Z 100)).

(** [progress_of] as a function of the exact quotient. *)
Definition progress_q (x : Q) : Z := Math_round (js_mul (round53 x) (inject_Z 100)).

(** The same computation on the Standard Library's specification of
    binary64 ([SpecFloat], precision 53, emax 1024), to compare with. *)
Definition sf_of_nat (n : nat) : spec_float :=
  binary_normalize 53 1024 (Z.of_nat n) 0 false.

Definition sf_to_Q (f : spec_float) : Q :=
  match f with
  | S754_finite s m e => ((if s then -1 else 1) * inject_Z (Zpos m) * pow2 e)%Q
  | _ => 0%Q
  end.

Definition sf_progress_of (completedCount total : nat) : Z :=
  Math_round (sf_to_Q (SFmul 53 1024 (SFdiv 53 1024 (sf_of_nat completedCount)
                                                    (sf_of_nat total))
                             (sf_of_nat 100))).

(** ** Values *)

(** An [Error] object. *)
Record JsError := { message : string }.

(** The JavaScript values that occur as items, query keys and query data. *)
#[local] Unset Elimination Schemes.
Inductive JsValue :=
| JsUndefined
| JsNull
| JsBoolean (b : bool)
| JsNumber (n : Z)
| JsString (s : string)
| JsArray (elements : list JsValue)
| JsObject (fields : list (string * JsValue)).
#[local] Set Elimination Schemes.

(** Truthiness, as [&&] and [||] test it. *)
Definition ToBoolean (v : JsValue) : bool :=
  match v with
  | JsUndefined | JsNull => false
  | JsBoolean b => b
  | JsNumber n => negb (n =? 0)
  | JsString s => negb (String.eqb s "")
  | JsArray _ | JsObject _ => true
  end.

(** ** Promises *)

(** How the promise returned by the per-batch operation settles. *)
Inductive Settlement (TData : Type) :=
| Fulfilled (result : TData)
| Rejected (error : JsError).
Arguments Fulfilled {TData} result.
Arguments Rejected {TData} error.

(** [Promise.all] keeps one slot per input promise, writes the value of a
    promise into its own slot when it fulfils, and fulfils with the slots,
    in input order, once none is empty. *)
Fixpoint Promise_all {A : Type} (values : list (option A)) : option (list A) :=
  match values with
  | [] => Some []
  | value :: rest =>
      match value, Promise_all rest with
      | Some v, Some vs => Some (v :: vs)
      | _, _ => None
      end
  end.

(** ** useBatchMutation *)

(** [BatchMutationResult] (and [BatchQueryResult], which has the same
    fields). *)
Record BatchMutationResult (TData : Type) := {
  data : list TData;
  totalBatches : nat;
  completedBatches : nat;
  errors : list JsError;
}.
Arguments data {TData} _.
Arguments totalBatches {TData} _.
Arguments completedBatches {TData} _.
Arguments errors {TData} _.

Definition BatchQueryResult := BatchMutationResult.

(** What a batch promise is turned into by its [then] and [catch] handlers:
    [{ success: true, data, index }] or [{ success: false, error, index }]. *)
Inductive BatchOutcome (TData : Type) :=
| BatchSuccess (result : TData) (index : nat)
| BatchFailure (error : JsError) (index : nat).
Arguments BatchSuccess {TData} result index.
Arguments BatchFailure {TData} error index.

Definition success {TData : Type} (r : BatchOutcome TData) : bool :=
  match r with BatchSuccess _ _ => true | BatchFailure _ _ => false end.

(** How the mutation function ends: it returns a result (the promise of
    [mutateBatchAsync] fulfils with it) or throws (the promise rejects). *)
Inductive Completion (TData : Type) :=
| Returned (result : BatchMutationResult TData)
| Threw (error : JsError).
Arguments Returned {TData} result.
Arguments Threw {TData} error.

(** The mutable state of one invocation: the counter [completedCount], the
    values passed to [setProgress] so far (oldest first) and the slots of
    [Promise.all(batchPromises)]. *)
Record MutationState (TData : Type) := {
  completedCount : nat;
  progress_log : list Z;
  settled : list (option (BatchOutcome TData));
}.
Arguments completedCount {TData} _.
Arguments progress_log {TData} _.
Arguments settled {TData} _.

(** What is observable of one invocation: the batches the per-batch
    operation was called with, the values [progress] went through, and the
    completion ([None] while some batch has not settled). *)
Record Invocation (TVariables TData : Type) := {
  calls : list (list TVariables);
  progress_values : list Z;
  completion : option (Completion TData);
}.
Arguments calls {TVariables TData} _.
Arguments progress_values {TVariables TData} _.
Arguments completion {TVariables TData} _.

Section BatchMutation.
Context {TVariables TData : Type}.

(** [mutationFn k batch]: how the promise of the [k]-th call of the
    caller's [mutationFn], made with [batch], settles. *)
Variable mutationFn : nat -> list TVariables -> Settlement TData.
Variable batchSize : Z.

(** The value that the [then] or the [catch] handler of the batch with the
    given index returns. *)
Definition settle_handler (index : nat) (outcome : Settlement TData)
    : BatchOutcome TData :=
  match outcome with
  | Fulfilled result => BatchSuccess result index
  | Rejected error => BatchFailure error index
  end.

(** The [then] and [catch] handlers of the batch with the given index, run
    when its promise settles: they count the batch, set the progress and
    return the value that [Promise.all] stores in the slot of the batch. *)
Definition on_settled (total : nat) (outcomes : list (Settlement TData))
    (st : MutationState TData) (index : nat) : MutationState TData :=
  match outcomes !! index with
  | None => st
  | Some outcome =>
      let count := S (completedCount st) in
      {| completedCount := count;
         progress_log := progress_log st ++ [progress_of count total];
         settled := <[index := Some (settle_handler index outcome)]> (settled st) |}
  end.

(** The [forEach] that sorts the results into [successfulResults] and
    [errors]. *)
Definition aggregate_step (acc : list TData * list JsError)
    (result : BatchOutcome TData) : list TData * list JsError :=
  match result with
  | BatchSuccess d _ => (acc.1 ++ [d], acc.2)
  | BatchFailure e _ => (acc.1, acc.2 ++ [e])
  end.

(** The code after [await Promise.all(batchPromises)]. *)
Definition aggregate (total : nat) (results : list (BatchOutcome TData))
    : Completion TData :=
  let acc := fold_left aggregate_step results ([], []) in
  match acc.1, acc.2 with
  | [], error :: _ => Threw error
  | successfulResults, errors =>
      Returned {| data := successfulResults;
                  totalBatches := total;
                  completedBatches := length (List.filter success results);
                  errors := errors |}
  end.

(** The mutation function that [mutateBatchAsync] runs through
    [mutation.mutateAsync].  [order] lists the batch indices in the order
    in which their promises settle; the result is [None] when the chunker
    does not return within [fuel] iterations. *)
Definition mutateBatchAsync (fuel : nat) (items : list TVariables)
    (order : list nat) : option (Invocation TVariables TData) :=
  match chunkArray fuel items batchSize with
  | None => None
  | Some batches =>
      if (length batches =? 0)%nat
      then Some {| calls := [];
                   progress_values := [0];
                   completion := Some (Returned {| data := []; totalBatches := 0;
                                                   completedBatches := 0; errors := [] |}) |}
      else
        let outcomes := imap mutationFn batches in
        let st := fold_left (on_settled (length batches) outcomes) order
                    {| completedCount := 0;
                       progress_log := [0];
                       settled := replicate (length batches) None |} in
        Some {| calls := batches;
                progress_values := progress_log st;
                completion := aggregate (length batches) <$> Promise_all (settled st) |}
  end.

End BatchMutation.

(** The results of the fulfilled batches and the errors of the rejected
    ones, each in batch-index order. *)
Definition fulfilled_results {TData : Type} (outcomes : list (Settlement TData))
    : list TData :=
  omap (fun o => match o with Fulfilled d => Some d | Rejected _ => None end) outcomes.

Definition rejected_errors {TData : Type} (outcomes : list (Settlement TData))
    : list JsError :=
  omap (fun o => match o with Fulfilled _ => None | Rejected e => Some e end) outcomes.

(** Per-batch operations for the examples: the call with a number listed in
    [failing] rejects with an error that names the call, every other call
    fulfils with the batch it was given. *)
Definition error_of_batch (k : nat) : JsError :=
  {| message := String (Ascii.ascii_of_nat (48 + k)) EmptyString |}.

Definition fail_at (failing : list nat) (k : nat) (batch : list nat)
    : Settlement (list nat) :=
  if existsb (Nat.eqb k) failing then Rejected (error_of_batch k) else Fulfilled batch.

(** ** useBatchQuery *)

(** The fields of a query result that the hook reads.  [query_data] is
    [JsUndefined] while the query has no data; [query_error] is [None] for
    [null], and an error is an [Error] object, which is truthy. *)
Record UseQueryResult := {
  query_data : JsValue;
  query_error : option JsError;
  query_isSuccess : bool;
  query_isError : bool;
  query_isLoading : bool;
  query_isFetching : bool;
}.

(** One entry of the [queries] option of [useQueries]: the key, and the
    batch that the entry's [queryFn] passes to the caller's [queryFn]. *)
Record QueryOptions := {
  queryKey : list JsValue;
  queryFn_batch : list JsValue;
}.

Record UseBatchQueryResult := {
  result_data : BatchQueryResult JsValue;
  isLoading : bool;
  isFetching : bool;
  isSuccess : bool;
  isError : bool;
  error : option JsError;
  progress : Z;
  batches_queries : list UseQueryResult;
}.

(** [[...queryKey, 'batch', index, batch]] *)
Definition batchQueryKey (baseKey : list JsValue) (index : nat) (batch : list JsValue)
    : list JsValue :=
  baseKey ++ [JsString "batch"; JsNumber (Z.of_nat index); JsArray batch].

Definition batchQueries (baseKey : list JsValue) (batches : list (list JsValue))
    : list QueryOptions :=
  imap (fun index batch => {| queryKey := batchQueryKey baseKey index batch;
                              queryFn_batch := batch |}) batches.

(** The [forEach] of the aggregation: the accumulator is
    [(successfulResults, errors, completedCount)]. *)
Definition query_step (acc : list JsValue * list JsError * nat) (query : UseQueryResult)
    : list JsValue * list JsError * nat :=
  let '(successfulResults, errors, completedCount) := acc in
  if query_isSuccess query && ToBoolean (query_data query)
  then (successfulResults ++ [query_data query], errors, S completedCount)
  else match query_isError query, query_error query with
       | true, Some e => (successfulResults, errors ++ [e], S completedCount)
       | _, _ => acc
       end.

(** What one query contributes to [successfulResults] and to [errors]. *)
Definition query_result (query : UseQueryResult) : option JsValue :=
  if query_isSuccess query && ToBoolean (query_data query)
  then Some (query_data query) else None.

Definition query_failure (query : UseQueryResult) : option JsError :=
  if query_isSuccess query && ToBoolean (query_data query) then None
  else if query_isError query then query_error query else None.

Section BatchQuery.
(** [useQueries] of the query library: the current state of each query
    of the given list. *)
Variable useQueries : list QueryOptions -> list UseQueryResult.
Variable baseKey : list JsValue.
Variable batchSize : Z.

Definition useBatchQuery (fuel : nat) (items : list JsValue)
    : option UseBatchQueryResult :=
  match chunkArray fuel items batchSize with
  | None => None
  | Some batches =>
      let queries := useQueries (batchQueries baseKey batches) in
      let '(successfulResults, errors, completedCount) :=
        fold_left query_step queries ([], [], 0%nat) in
      let totalBatches := length batches in
      Some {| result_data :=
                {| data := successfulResults;
                   totalBatches := totalBatches;
                   completedBatches := length (List.filter query_isSuccess queries);
                   errors := errors |};
              progress := if (0 <? totalBatches)%nat
                          then progress_of completedCount totalBatches else 0;
              isLoading := existsb query_isLoading queries;
              isFetching := existsb query_isFetching queries;
              isSuccess := forallb query_isSuccess queries;
              isError := existsb query_isError queries;
              error := match find query_isError queries with
                       | Some q => query_error q
                       | None => None
                       end;
              batches_queries := queries |}
  end.

End BatchQuery.

(** Query states for the examples. *)
Definition query_succeeded (value : JsValue) : UseQueryResult :=
  {| query_data := value; query_error := None;
     query_isSuccess := true; query_isError := false;
     query_isLoading := false; query_isFetching := false |}.

Definition query_failed (e : JsError) : UseQueryResult :=
  {| query_data := JsUndefined; query_error := Some e;
     query_isSuccess := false; query_isError := true;
     query_isLoading := false; query_isFetching := false |}.

Definition query_pending : UseQueryResult :=
  {| query_data := JsUndefined; query_error := None;
     query_isSuccess := false; query_isError := false;
     query_isLoading := true; query_isFetching := true |}.

(** A query library in which every query is in the given state. *)
Definition all_queries (state : UseQueryResult) (options : list QueryOptions)
    : list UseQueryResult :=
  (fun _ => state) <$> options.


(** ** The users API and the batch demo page *)

Record User := { user_id : string; user_fullName : string }.

Record UsersResponse := { users : list User; total : nat }.

(** [fetchUsersByIds]: the mock of the users service answers, after a
    delay, with one user per id, named after the id. *)
Definition fetchUsersByIds (userIds : list string) : UsersResponse :=
  let users := (fun id => {| user_id := id;
                             user_fullName := String.append "User " id |}) <$> userIds in
  {| users := users; total := length users |}.

(** [useUsersBatch().mutateBatchAsync]: [useBatchMutation] with the users
    API as the per-batch operation and a batch size of 500.  (The options
    [retry] and [retryDelay] concern a mutation function that throws.) *)
Definition useUsersBatch_mutateBatchAsync (fuel : nat) (items : list string)
    (order : list nat) : option (Invocation string UsersResponse) :=
  mutateBatchAsync (fun _ userIdsBatch => Fulfilled (fetchUsersByIds userIdsBatch))
    500 fuel items order.

(** Strings are sequences of code units below 256.  The white space that
    [String.prototype.trim] removes is, in that range, the characters 9 to
    13, the space and the no-break space. *)
Definition is_whitespace (c : ascii) : bool :=
  existsb (Nat.eqb (nat_of_ascii c)) [9; 10; 11; 12; 13; 32; 160]%nat.

Fixpoint trimStart (s : string) : string :=
  match s with
  | EmptyString => EmptyString
  | String c s' => if is_whitespace c then trimStart s' else s
  end.

Fixpoint trimEnd (s : string) : string :=
  match s with
  | EmptyString => EmptyString
  | String c s' =>
      match trimEnd s' with
      | EmptyString => if is_whitespace c then EmptyString else String c EmptyString
      | t => String c t
      end
  end.

Definition trim (s : string) : string := trimEnd (trimStart s).

Definition line_feed : ascii := "010"%char.

(** [s.split(sep)] with a separator of one character. *)
Fixpoint split (sep : ascii) (s : string) : list string :=
  match s with
  | EmptyString => [EmptyString]
  | String c s' =>
      if Ascii.eqb c sep then EmptyString :: split sep s'
      else match split sep s' with
           | part :: parts => String c part :: parts
           | [] => [String c EmptyString]
           end
  end.

(** The characters of a string. *)
Definition chars (s : string) : list ascii := list_ascii_of_string s.

(** [text.split('\n').map((id) => id.trim()).filter(Boolean)] of both demo
    pages. *)
Definition parse_ids (text : string) : list string :=
  List.filter (fun id => negb (String.eqb id "")) (trim <$> split line_feed text).

(** The decimal digits of a count, as a template literal prints it. *)
Definition decimal (n : nat) : string := NilEmpty.string_of_uint (Nat.to_uint n).

(** [generateTestIds]: the ids [user_1] ... [user_count], and the text it
    puts into the input, [ids.join('\n')]. *)
Definition generateTestIds_ids (count : nat) : list string :=
  (fun i => String.append "user_" (decimal (i + 1))) <$> seq 0 count.

Definition generateTestIds (count : nat) : string :=
  String.concat (String line_feed EmptyString) (generateTestIds_ids count).

(** The message that [handleLoadUsers] shows. *)
Inductive Notice :=
| EnterIds
| LoadedWithErrors (loaded failedBatches : nat)
| LoadedAll (loaded totalBatches : nat)
| LoadFailed (e : JsError).

(** [handleLoadUsers] of the batch-mutation demo page: the list passed to
    [setLoadedUsers] ([None] when it is not called) and the message;
    [None] while the invocation has not settled. *)
Definition handleLoadUsers (fuel : nat) (userIds : string) (order : list nat)
    : option (option (list User) * Notice) :=
  let ids := parse_ids userIds in
  if (length ids =? 0)%nat then Some (None, EnterIds)
  else
    match useUsersBatch_mutateBatchAsync fuel ids order with
    | None => None
    | Some inv =>
        match completion inv with
        | None => None
        | Some (Returned result) =>
            let allUsers := concat (users <$> data result) in
            Some (Some allUsers,
                  if (0 <? length (errors result))%nat
                  then LoadedWithErrors (length allUsers) (length (errors result))
                  else LoadedAll (length allUsers) (totalBatches result))
        | Some (Threw e) => Some (None, LoadFailed e)
        end
    end.

(** ** Names *)

(** [`${s[0]}`]: the first character of a string in a template literal;
    the empty string has none and prints as "undefined". *)
Definition first_char (s : string) : string :=
  match s with
  | EmptyString => "undefined"
  | String c _ => String c EmptyString
  end.

Definition space : ascii := " "%char.

(** [shortenFullName] *)
Definition shortenFullName (fullName : string) : string :=
  match split space (trim fullName) with
  | [] => fullName
  | [p0] => p0
  | [p0; p1] => String.append p0 (String space (String.append (first_char p1) "."))
  | p0 :: p1 :: p2 :: _ =>
      String.append p0
        (String space
           (String.append (first_char p1)
              (String.append "." (String.append (first_char p2) "."))))
  end.

Section Chunker.
Context {T : Type}.
Implicit Types (array : list T) (chunks : list (list T)).

Example chunk_1300_by_500 :
  option_map (map (@length nat)) (chunkArray 10 (seq 0 1300) 500)
  = Some [500; 500; 300]%nat.
Proof. vm_compute. reflexivity. Qed.

Lemma slice_inside array (i size : Z) :
  0 <= i -> 0 < size ->
  slice array i (i + size) = take (Z.to_nat size) (drop (Z.to_nat i) array).
Proof.
  intros Hi Hs. unfold slice, relative_index.
  destruct (Z.ltb_spec i 0); [lia|].
  destruct (Z.ltb_spec (i + size) 0); [lia|].
  set (len := Z.of_nat (length array)).
  destruct (Z.le_gt_cases (i + size) len) as [Hle|Hgt].
  - rewrite (Z.min_l i len), (Z.min_l (i + size) len) by lia.
    by replace (i + size - i) with size by lia.
  - destruct (Z.le_gt_cases i len) as [Hil|Hil].
    + rewrite (Z.min_l i len), (Z.min_r (i + size) len) by lia.
      rewrite !take_ge; [done| |]; rewrite length_drop; subst len; lia.
    + rewrite !drop_ge by (subst len; lia). by rewrite !take_nil.
Qed.

Lemma chunk_loop_run array size (Hs : 0 < size) :
  forall fuel i chunks,
    0 <= i ->
    Z.max 0 (Z.of_nat (length array) - i) < Z.of_nat fuel ->
    chunk_loop fuel array size i chunks
    = Some (chunks ++ chunks_from (Z.to_nat (ceil_div (Z.of_nat (length array) - i) size))
                        array size i).
Proof.
  set (len := Z.of_nat (length array)).
  induction fuel as [|fuel IH]; intros i chunks Hi Hfuel.
  - lia.
  - simpl. fold len. destruct (Z.ltb_spec i len) as [Hlt|Hge].
    + rewrite IH by lia. rewrite slice_inside by lia.
      f_equal. rewrite <- app_assoc. f_equal. simpl.
      assert (Hc : ceil_div (len - i) size = 1 + ceil_div (len - (i + size)) size).
      { unfold ceil_div.
        replace (len - i + size - 1) with ((len - (i + size) + size - 1) + 1 * size) by lia.
        rewrite Z.div_add by lia. lia. }
      assert (Hnn : 0 <= ceil_div (len - (i + size)) size).
      { unfold ceil_div. apply Z.div_pos; lia. }
      rewrite Hc, Z2Nat.inj_add by lia. reflexivity.
    + assert (Hz : ceil_div (len - i) size <= 0).
      { unfold ceil_div.
        assert (len - i + size - 1 < size) by lia.
        destruct (Z.le_gt_cases 0 (len - i + size - 1)).
        - rewrite Z.div_small by lia. lia.
        - assert ((len - i + size - 1) / size < 0) by (apply Z.div_lt_upper_bound; lia). lia. }
      replace (Z.to_nat _) with 0%nat by lia. simpl. by rewrite app_nil_r.
Qed.

(** More fuel never changes a result that was reached. *)
Lemma chunk_loop_fuel_mono array size :
  forall fuel fuel' i chunks out,
    chunk_loop fuel array size i chunks = Some out ->
    (fuel <= fuel')%nat ->
    chunk_loop fuel' array size i chunks = Some out.
Proof.
  induction fuel as [|fuel IH]; intros fuel' i chunks out Hrun Hle; [done|].
  destruct fuel' as [|fuel']; [lia|].
  simpl in *. destruct (i <? Z.of_nat (length array)); [|done].
  apply IH; [done|lia].
Qed.

Lemma chunks_from_length count array size i :
  length (chunks_from count array size i) = count.
Proof. revert i. induction count; intros; simpl; auto. Qed.

Lemma chunks_from_lookup array size :
  forall count i (k : nat),
    (k < count)%nat ->
    chunks_from count array size i !! k
    = Some (take (Z.to_nat size) (drop (Z.to_nat (i + Z.of_nat k * size)) array)).
Proof.
  induction count as [|count IH]; intros i k Hk; [lia|].
  destruct k as [|k]; simpl.
  - do 3 f_equal. lia.
  - rewrite IH by lia. do 3 f_equal. lia.
Qed.

Lemma chunks_from_concat array size (Hs : 0 < size) :
  forall count i,
    0 <= i ->
    concat (chunks_from count array size i)
    = take (Z.to_nat (Z.of_nat count * size)) (drop (Z.to_nat i) array).
Proof.
  induction count as [|count IH]; intros i Hi.
  - by rewrite take_0.
  - cbn [chunks_from concat]. rewrite IH by lia.
    replace (Z.to_nat (Z.of_nat (S count) * size))
      with (Z.to_nat size + Z.to_nat (Z.of_nat count * size))%nat by lia.
    replace (Z.to_nat (i + size)) with (Z.to_nat i + Z.to_nat size)%nat by lia.
    rewrite <- drop_drop.
    apply take_take_drop.
Qed.

Lemma ceil_div_spec n size :
  0 < size -> 0 <= n ->
  (ceil_div n size - 1) * size < n <= ceil_div n size * size.
Proof.
  intros Hs Hn. unfold ceil_div.
  pose proof (Z.div_mod (n + size - 1) size ltac:(lia)) as Hdm.
  pose proof (Z.mod_pos_bound (n + size - 1) size Hs) as Hb.
  nia.
Qed.

(** C1. For a positive [size], [chunkArray] returns (with any fuel beyond
    the length of the array, and with the same result for every fuel that
    suffices) the empty sequence on the empty array and otherwise
    ceil(n/size) chunks, each of length [size] except possibly the last
    one, whose length is [n mod size] (or [size] when [size] divides [n]);
    the concatenation of the chunks is the array itself. *)
Theorem chunkArray_partition array size :
  0 < size ->
  let n := Z.of_nat (length array) in
  exists chunks,
    (forall fuel, (length array < fuel)%nat -> chunkArray fuel array size = Some chunks)
    /\ (forall fuel out, chunkArray fuel array size = Some out -> out = chunks)
    /\ (array = [] -> chunks = [])
    /\ Z.of_nat (length chunks) = ceil_div n size
    /\ (forall (k : nat) c, chunks !! k = Some c ->
          Z.of_nat (length c)
          = if (S k <? length chunks)%nat then size
            else if n mod size =? 0 then size else n mod size)
    /\ concat chunks = array.
Proof.
  intros Hs n.
  set (count := Z.to_nat (ceil_div n size)).
  assert (Hcount : Z.of_nat count = ceil_div n size).
  { subst count. rewrite Z2Nat.id; [done|]. unfold ceil_div. apply Z.div_pos; lia. }
  pose proof (ceil_div_spec n size Hs ltac:(lia)) as Hceil.
  rewrite <- Hcount in Hceil.
  assert (Hrun : forall fuel, (length array < fuel)%nat ->
            chunkArray fuel array size = Some (chunks_from count array size 0)).
  { intros fuel Hfuel. unfold chunkArray.
    rewrite chunk_loop_run by lia. rewrite Z.sub_0_r. done. }
  exists (chunks_from count array size 0). repeat split.
  - exact Hrun.
  - intros fuel out Hout.
    pose proof (chunk_loop_fuel_mono _ _ _ (fuel + S (length array))%nat _ _ _ Hout
                  ltac:(lia)) as Hmore.
    fold (chunkArray (fuel + S (length array)) array size) in Hmore.
    rewrite Hrun in Hmore by lia. by injection Hmore.
  - intros Hnil.
    assert (count = 0%nat) as ->; [|done].
    assert (n = 0) as Hn0 by (subst n; rewrite Hnil; done).
    rewrite Hn0 in Hceil. nia.
  - by rewrite chunks_from_length.
  - intros k c Hk. rewrite chunks_from_length.
    assert (Hlt : (k < count)%nat).
    { apply lookup_lt_Some in Hk. by rewrite chunks_from_length in Hk. }
    rewrite chunks_from_lookup in Hk by done. injection Hk as <-.
    rewrite length_take, length_drop.
    assert (Hlen : Z.of_nat (length array) = n) by done.
    destruct (Nat.ltb_spec (S k) count) as [Hin|Hlast].
    + nia.
    + assert (Z.of_nat k = Z.of_nat count - 1) as Hk by lia.
      pose proof (Z.div_mod n size ltac:(lia)) as Hdm.
      pose proof (Z.mod_pos_bound n size Hs) as Hb.
      destruct (Z.eqb_spec (n mod size) 0) as [Hz|Hnz].
      * assert (n / size = Z.of_nat count) by nia. nia.
      * assert (n / size = Z.of_nat count - 1) by nia. nia.
  - rewrite chunks_from_concat by lia. simpl. rewrite drop_0.
    apply take_ge. subst n. lia.
Qed.

End Chunker.

Lemma chunkArray_partition_witness :
  exists chunks,
    (forall fuel, (3 < fuel)%nat -> chunkArray fuel [1; 2; 3] 2 = Some chunks)
    /\ concat chunks = [1; 2; 3].
Proof.
  destruct (chunkArray_partition [1; 2; 3] 2 ltac:(lia))
    as (chunks & Hrun & _ & _ & _ & _ & Hcat).
  exists chunks. split; [exact Hrun | exact Hcat].
Defined.

(** ** Rounding to binary64 is monotone *)

Section Rounding.
Local Open Scope Q_scope.


Lemma pow2_pos e : 0 < pow2 e.
Proof. apply Qpower_0_lt. reflexivity. Qed.

Lemma pow2_add a b : pow2 (a + b) == pow2 a * pow2 b.
Proof. apply Qpower_plus. discriminate. Qed.

Lemma pow2_le a b : (a <= b)%Z -> pow2 a <= pow2 b.
Proof. intros H. apply Qpower_le_compat_l; [exact H | discriminate]. Qed.

Lemma pow2_succ a : pow2 (a + 1) == 2 * pow2 a.
Proof. rewrite pow2_add. change (pow2 1) with 2. ring. Qed.

Lemma pow2_inject (a : Z) : (0 <= a)%Z -> inject_Z (2 ^ a) == pow2 a.
Proof. intros H. unfold pow2. rewrite Zpower_Qpower by exact H. reflexivity. Qed.

Lemma log2_bounds (p : Z) :
  (0 < p)%Z -> pow2 (Z.log2 p) <= inject_Z p /\ inject_Z p < 2 * pow2 (Z.log2 p).
Proof.
  intros Hp. destruct (Z.log2_spec p Hp) as [Hlo Hhi].
  pose proof (Z.log2_nonneg p) as Hnn.
  rewrite <- pow2_succ, <- !pow2_inject by lia.
  rewrite <- Zle_Qle, <- Zlt_Qlt. unfold Z.succ in Hhi. split; assumption.
Qed.

Lemma ilog2_spec x : 0 < x -> pow2 (ilog2 x) <= x /\ x < pow2 (ilog2 x + 1).
Proof.
  intros Hx. unfold ilog2.
  destruct x as [p q]. cbn [Qnum Qden].
  assert (Hp : (0 < p)%Z).
  { unfold Qlt in Hx. cbn in Hx. lia. }
  destruct (log2_bounds p Hp) as [HA1 HA2].
  destruct (log2_bounds (Zpos q) ltac:(lia)) as [HB1 HB2].
  set (a := Z.log2 p) in *. set (b := Z.log2 (Zpos q)) in *.
  assert (HE : pow2 (a - b) * pow2 b == pow2 a).
  { rewrite <- pow2_add. replace (a - b + b)%Z with a by lia. reflexivity. }
  pose proof (pow2_pos (a - b)) as HEpos.
  pose proof (pow2_pos b) as HBpos.
  assert (Hxq : (p # q) * inject_Z (Zpos q) == inject_Z p).
  { rewrite (Qmake_Qdiv p q). field. discriminate. }
  assert (Hqpos : 0 < inject_Z (Zpos q)) by (unfold Qlt; simpl; lia).
  set (x := p # q) in *. set (P := inject_Z p) in *. set (D := inject_Z (Zpos q)) in *.
  set (E := pow2 (a - b)) in *. set (B := pow2 b) in *. set (A := pow2 a) in *.
  assert (Hup : x < 2 * E).
  { apply Qnot_le_lt. intros Hc. 
    assert (2 * E * B <= x * D) by nra. nra. }
  assert (Hlow : E <= 2 * x).
  { apply Qnot_lt_le. intros Hc.
    assert (2 * x * D < E * D) by nra. nra. }
  destruct (Qle_bool E x) eqn:Hcmp.
  - apply Qle_bool_iff in Hcmp. split; [exact Hcmp|].
    rewrite pow2_succ. exact Hup.
  - assert (Hlt : x < E).
    { apply Qnot_le_lt. intros Hc. apply Qle_bool_iff in Hc. congruence. }
    replace (a - b - 1 + 1)%Z with (a - b)%Z by lia. split; [|exact Hlt].
    assert (H2 : 2 * pow2 (a - b - 1) == E).
    { rewrite <- pow2_succ. replace (a - b - 1 + 1)%Z with (a - b)%Z by lia. reflexivity. }
    lra.
Qed.

Lemma round_half_even_cases x :
  round_half_even x = Qfloor x \/ round_half_even x = (Qfloor x + 1)%Z.
Proof.
  unfold round_half_even.
  destruct (Qcompare _ _); [destruct (Z.even _)|..]; auto.
Qed.

Lemma round_half_even_lower x (k : Z) : inject_Z k <= x -> (k <= round_half_even x)%Z.
Proof.
  intros Hk. apply Qfloor_resp_le in Hk. rewrite Qfloor_Z in Hk.
  destruct (round_half_even_cases x) as [-> | ->]; lia.
Qed.

Lemma round_half_even_upper x (k : Z) : x <= inject_Z k -> (round_half_even x <= k)%Z.
Proof.
  intros Hk. unfold round_half_even.
  pose proof (Qfloor_le x) as Hfl.
  assert (Hfk : (Qfloor x <= k)%Z).
  { apply Qfloor_resp_le in Hk. rewrite Qfloor_Z in Hk; exact Hk. }
  assert (Hstep : x - inject_Z (Qfloor x) > 0 -> (Qfloor x + 1 <= k)%Z).
  { intros Hgt. destruct (Z.eq_dec (Qfloor x) k) as [Heq|Hne]; [|lia].
    rewrite Heq in Hgt. lra. }
  destruct (Qcompare_spec (x - inject_Z (Qfloor x)) (1 # 2)) as [He|Hl|Hg].
  - destruct (Z.even _); [lia|]. apply Hstep. lra.
  - lia.
  - apply Hstep. lra.
Qed.

Lemma round_half_even_mono x y : x <= y -> (round_half_even x <= round_half_even y)%Z.
Proof.
  intros Hxy.
  pose proof (Qfloor_resp_le x y Hxy) as Hfl.
  destruct (Z.eq_dec (Qfloor x) (Qfloor y)) as [Heq|Hne].
  - unfold round_half_even. rewrite <- Heq.
    destruct (Qcompare_spec (x - inject_Z (Qfloor x)) (1 # 2)) as [He|Hl|Hg];
      destruct (Qcompare_spec (y - inject_Z (Qfloor x)) (1 # 2)) as [He'|Hl'|Hg'];
      try destruct (Z.even _); try lia; lra.
  - destruct (round_half_even_cases x) as [-> | ->];
      destruct (round_half_even_cases y) as [-> | ->]; lia.
Qed.

Lemma pow2_cancel e : pow2 (- e) * pow2 e == 1.
Proof. rewrite <- pow2_add. replace (- e + e)%Z with 0%Z by lia. reflexivity. Qed.

(** The scaled significand of a positive number lies in [2^52, 2^53). *)
Lemma significand_bounds x :
  0 < x ->
  let e := (ilog2 x - 52)%Z in
  pow2 52 <= x * pow2 (- e) /\ x * pow2 (- e) <= pow2 53.
Proof.
  intros Hx e. destruct (ilog2_spec x Hx) as [Hlo Hhi].
  pose proof (pow2_pos (- e)) as Hpos.
  assert (H52 : pow2 (ilog2 x) * pow2 (- e) == pow2 52).
  { rewrite <- pow2_add. subst e. replace (ilog2 x + - (ilog2 x - 52))%Z with 52%Z by lia.
    reflexivity. }
  assert (H53 : pow2 (ilog2 x + 1) * pow2 (- e) == pow2 53).
  { rewrite <- pow2_add. subst e. replace (ilog2 x + 1 + - (ilog2 x - 52))%Z with 53%Z by lia.
    reflexivity. }
  split.
  - rewrite <- H52. apply Qmult_le_compat_r; [exact Hlo | lra].
  - rewrite <- H53. apply Qmult_le_compat_r; lra.
Qed.

Lemma round53_pos_bounds x :
  0 < x -> pow2 (ilog2 x) <= round53_pos x /\ round53_pos x <= pow2 (ilog2 x + 1).
Proof.
  intros Hx. unfold round53_pos.
  destruct (significand_bounds x Hx) as [Hlo Hhi].
  set (e := (ilog2 x - 52)%Z) in *.
  set (m := round_half_even (x * pow2 (- e))).
  pose proof (pow2_pos e) as Hpos.
  assert (Hm1 : (2 ^ 52 <= m)%Z).
  { apply round_half_even_lower. rewrite pow2_inject by lia. exact Hlo. }
  assert (Hm2 : (m <= 2 ^ 53)%Z).
  { apply round_half_even_upper. rewrite pow2_inject by lia. exact Hhi. }
  rewrite Zle_Qle in Hm1, Hm2. rewrite !pow2_inject in Hm1, Hm2 by lia.
  assert (H52 : pow2 52 * pow2 e == pow2 (ilog2 x)).
  { rewrite <- pow2_add. subst e. replace (52 + (ilog2 x - 52))%Z with (ilog2 x) by lia.
    reflexivity. }
  assert (H53 : pow2 53 * pow2 e == pow2 (ilog2 x + 1)).
  { rewrite <- pow2_add. subst e. replace (53 + (ilog2 x - 52))%Z with (ilog2 x + 1)%Z by lia.
    reflexivity. }
  split.
  - rewrite <- H52. apply Qmult_le_compat_r; lra.
  - rewrite <- H53. apply Qmult_le_compat_r; lra.
Qed.

Lemma round53_pos_mono x y : 0 < x -> x <= y -> round53_pos x <= round53_pos y.
Proof.
  intros Hx Hxy. assert (Hy : 0 < y) by lra.
  destruct (Z_lt_le_dec (ilog2 x) (ilog2 y)) as [Hlt|Hge].
  - destruct (round53_pos_bounds x Hx) as [_ Hup].
    destruct (round53_pos_bounds y Hy) as [Hlo _].
    pose proof (pow2_le (ilog2 x + 1) (ilog2 y) ltac:(lia)). lra.
  - assert (Heq : ilog2 x = ilog2 y).
    { destruct (ilog2_spec x Hx) as [Hlo _]. destruct (ilog2_spec y Hy) as [_ Hhi].
      destruct (Z.eq_dec (ilog2 x) (ilog2 y)) as [|Hne]; [assumption|].
      pose proof (pow2_le (ilog2 y + 1) (ilog2 x) ltac:(lia)). lra. }
    unfold round53_pos. rewrite Heq.
    set (e := (ilog2 y - 52)%Z).
    apply Qmult_le_compat_r; [|pose proof (pow2_pos e); lra].
    rewrite <- Zle_Qle. apply round_half_even_mono.
    apply Qmult_le_compat_r; [exact Hxy | pose proof (pow2_pos (- e)); lra].
Qed.

Lemma round53_nonneg x : 0 <= x -> 0 <= round53 x.
Proof.
  intros Hx. unfold round53. destruct (Qcompare_spec x 0) as [He|Hl|Hg]; [lra|lra|].
  destruct (round53_pos_bounds x Hg) as [Hlo _]. pose proof (pow2_pos (ilog2 x)). lra.
Qed.

Lemma round53_mono x y : 0 <= x -> x <= y -> round53 x <= round53 y.
Proof.
  intros Hx Hxy. unfold round53 at 1.
  destruct (Qcompare_spec x 0) as [He|Hl|Hg]; [|lra|].
  - apply round53_nonneg. lra.
  - unfold round53. destruct (Qcompare_spec y 0) as [He'|Hl'|Hg']; [lra|lra|].
    apply round53_pos_mono; assumption.
Qed.

Lemma progress_q_mono x y : 0 <= x -> x <= y -> (progress_q x <= progress_q y)%Z.
Proof.
  intros Hx Hxy. unfold progress_q, Math_round, js_mul.
  pose proof (round53_nonneg x Hx) as Hnn.
  pose proof (round53_mono x y Hx Hxy) as Hm.
  apply Qfloor_resp_le.
  assert (Hstep : round53 (round53 x * inject_Z 100) <= round53 (round53 y * inject_Z 100)).
  { change (inject_Z 100) with 100. apply round53_mono; lra. }
  lra.
Qed.

Lemma ratio_le (c n a b : Z) :
  (0 < n)%Z -> (0 < b)%Z -> (c * b <= a * n)%Z ->
  inject_Z c / inject_Z n <= inject_Z a / inject_Z b.
Proof.
  intros Hn Hb Hle.
  assert (Hn' : 0 < inject_Z n) by (unfold Qlt; simpl; lia).
  assert (Hb' : 0 < inject_Z b) by (unfold Qlt; simpl; lia).
  apply Qle_shift_div_r; [exact Hn'|].
  assert (inject_Z a / inject_Z b * inject_Z n == inject_Z a * inject_Z n / inject_Z b) as ->
    by (field; lra).
  apply Qle_shift_div_l; [exact Hb'|].
  rewrite <- !inject_Z_mult, <- Zle_Qle. exact Hle.
Qed.

End Rounding.

Section Progress.

Lemma progress_of_quotient (c n : nat) :
  progress_of c n = progress_q (inject_Z (Z.of_nat c) / inject_Z (Z.of_nat n)).
Proof. reflexivity. Qed.

(** The progress value is monotone in the exact quotient. *)
Lemma progress_of_le (c n a b : nat) :
  (0 < n)%nat -> (0 < b)%nat -> (c * b <= a * n)%nat ->
  progress_of c n <= progress_of a b.
Proof.
  intros Hn Hb Hle. rewrite !progress_of_quotient.
  apply progress_q_mono.
  - change 0%Q with (inject_Z 0 / inject_Z 1)%Q. apply ratio_le; lia.
  - apply ratio_le; nia.
Qed.

Lemma progress_of_mono (c c' n : nat) :
  (0 < n)%nat -> (c <= c')%nat -> progress_of c n <= progress_of c' n.
Proof. intros Hn Hc. apply progress_of_le; nia. Qed.

Lemma progress_of_range (c n : nat) :
  (0 < n)%nat -> (c <= n)%nat -> 0 <= progress_of c n <= 100.
Proof.
  intros Hn Hc. split.
  - change 0 with (progress_of 0 1). apply progress_of_le; lia.
  - change 100 with (progress_of 1 1). apply progress_of_le; lia.
Qed.

Lemma progress_of_all (n : nat) : (0 < n)%nat -> progress_of n n = 100.
Proof.
  intros Hn. apply Z.le_antisymm.
  - change 100 with (progress_of 1 1). apply progress_of_le; lia.
  - change 100 with (progress_of 1 1). apply progress_of_le; lia.
Qed.

(** With fewer than 200 batches the value stays below 100 until the last
    batch has settled. *)
Lemma progress_of_below_100 (c n : nat) :
  (c < n)%nat -> (n < 200)%nat -> progress_of c n < 100.
Proof.
  intros Hc Hn.
  assert (H99 : progress_of 198 199 = 99) by (vm_compute; reflexivity).
  pose proof (progress_of_le c n 198 199 ltac:(lia) ltac:(lia) ltac:(lia)). lia.
Qed.

(** The model agrees with the Standard Library's binary64 on every
    count of settled batches for up to 64 batches, and on the inputs
    used below. *)
Example progress_of_agrees_with_SpecFloat :
  forallb (fun n => forallb (fun c => progress_of c n =? sf_progress_of c n) (seq 0 (S n)))
          (seq 1 64) = true.
Proof. vm_compute. reflexivity. Qed.

Example progress_of_agrees_with_SpecFloat_200 :
  map (fun c => progress_of c 200) [29; 198; 199; 200]%nat
  = map (fun c => sf_progress_of c 200) [29; 198; 199; 200]%nat.
Proof. vm_compute. reflexivity. Qed.

(** Floating point: 29/200 is rounded to a number below 0.145, and its
    product with 100 to a number below 14.5. *)
Example progress_of_29_200 : progress_of 29 200 = 14.
Proof. vm_compute. reflexivity. Qed.

End Progress.

(** ** The imperative orchestrator *)

Section BatchMutationProperties.
Context {TVariables TData : Type}.
Implicit Types (outcomes : list (Settlement TData)) (order : list nat).
Implicit Types (st : MutationState TData).
Implicit Types (mutationFn : nat -> list TVariables -> Settlement TData).
Implicit Types (items : list TVariables) (batches : list (list TVariables)).

Lemma Promise_all_filled {A : Type} (values : list A) :
  Promise_all (Some <$> values) = Some values.
Proof.
  induction values as [|v values IH]; [done|].
  rewrite fmap_cons. cbn [Promise_all]. by rewrite IH.
Qed.

Lemma on_settled_count total outcomes order :
  Forall (fun i => i < length outcomes)%nat order ->
  forall st,
    let st' := fold_left (on_settled total outcomes) order st in
    completedCount st' = (completedCount st + length order)%nat
    /\ progress_log st'
       = progress_log st
         ++ ((fun k => progress_of k total) <$> seq (S (completedCount st)) (length order)).
Proof.
  induction 1 as [|i order Hi _ IH]; intros st; simpl.
  - split; [lia | by rewrite app_nil_r].
  - destruct (lookup_lt_is_Some_2 outcomes i Hi) as [o Ho].
    destruct (IH (on_settled total outcomes st i)) as [Hc Hp].
    rewrite Hc, Hp. unfold on_settled. rewrite Ho. simpl.
    split; [lia | by rewrite <- app_assoc].
Qed.

Lemma on_settled_slots total outcomes order :
  forall st (i : nat),
    length (settled st) = length outcomes ->
    settled (fold_left (on_settled total outcomes) order st) !! i
    = if decide (i ∈ order)
      then (fun o => Some (settle_handler i o)) <$> outcomes !! i
      else settled st !! i.
Proof.
  induction order as [|j order IH]; intros st i Hlen; cbn [fold_left].
  - rewrite decide_False; [done | apply not_elem_of_nil].
  - assert (Hlen' : length (settled (on_settled total outcomes st j)) = length outcomes).
    { unfold on_settled. destruct (outcomes !! j); simpl; [|done].
      by rewrite length_insert. }
    rewrite (IH _ i Hlen').
    destruct (decide (i ∈ order)) as [Hin|Hnin].
    { rewrite decide_True; [done | rewrite elem_of_cons; tauto]. }
    destruct (decide (i = j)) as [->|Hne].
    + rewrite decide_True by (rewrite elem_of_cons; tauto).
      unfold on_settled. destruct (outcomes !! j) as [o|] eqn:Ho; simpl.
      * apply list_lookup_insert_eq. rewrite Hlen. by apply lookup_lt_Some in Ho.
      * apply lookup_ge_None. rewrite Hlen. by apply lookup_ge_None in Ho.
    + rewrite decide_False by (rewrite elem_of_cons; tauto).
      unfold on_settled. destruct (outcomes !! j); simpl; [|done].
      by apply list_lookup_insert_ne.
Qed.

(** Whatever the order of settlement, once every batch has settled the
    slots of [Promise.all] hold the handler values in batch-index order. *)
Lemma on_settled_all total outcomes order st :
  order ≡ₚ seq 0 (length outcomes) ->
  length (settled st) = length outcomes ->
  settled (fold_left (on_settled total outcomes) order st)
  = Some <$> imap settle_handler outcomes.
Proof.
  intros Hperm Hlen. apply list_eq. intros i.
  rewrite on_settled_slots by done.
  rewrite list_lookup_fmap, list_lookup_imap.
  destruct (decide (i ∈ order)) as [Hin|Hnin].
  - by destruct (outcomes !! i).
  - assert (Hge : (length outcomes <= i)%nat).
    { destruct (Nat.le_gt_cases (length outcomes) i) as [|Hlt]; [done|].
      exfalso. apply Hnin. rewrite Hperm. apply elem_of_seq. lia. }
    rewrite (lookup_ge_None_2 outcomes i Hge).
    apply lookup_ge_None. lia.
Qed.

Lemma aggregate_step_fold outcomes :
  forall (f : nat -> nat) (acc : list TData * list JsError),
    fold_left aggregate_step (imap (fun i => settle_handler (f i)) outcomes) acc
    = (acc.1 ++ fulfilled_results outcomes, acc.2 ++ rejected_errors outcomes).
Proof.
  induction outcomes as [|o outcomes IH]; intros f acc.
  - destruct acc. simpl. by rewrite !app_nil_r.
  - cbn [imap fold_left]. rewrite (IH (f ∘ S)).
    destruct o; simpl; by rewrite <- ?app_assoc.
Qed.

Lemma success_count outcomes :
  forall (f : nat -> nat),
    length (List.filter success (imap (fun i => settle_handler (f i)) outcomes))
    = length (fulfilled_results outcomes).
Proof.
  induction outcomes as [|o outcomes IH]; intros f; [done|].
  destruct o; simpl; [f_equal|]; exact (IH (f ∘ S)).
Qed.

Lemma settled_partition outcomes :
  (length (fulfilled_results outcomes) + length (rejected_errors outcomes))%nat
  = length outcomes.
Proof.
  induction outcomes as [|o outcomes IH]; [done|].
  unfold fulfilled_results, rejected_errors in *.
  destruct o; cbn [omap list_omap length] in *; lia.
Qed.

Lemma aggregate_by_index total outcomes :
  aggregate total (imap settle_handler outcomes)
  = match fulfilled_results outcomes, rejected_errors outcomes with
    | [], e :: _ => Threw e
    | successes, failures =>
        Returned {| data := successes; totalBatches := total;
                    completedBatches := length successes; errors := failures |}
    end.
Proof.
  pose proof (aggregate_step_fold outcomes id ([], [])) as Hfold.
  pose proof (success_count outcomes id) as Hcount.
  change (imap (fun i => settle_handler (id i)) outcomes)
    with (imap settle_handler outcomes) in Hfold, Hcount.
  unfold aggregate. rewrite Hfold. cbn [fst snd app]. rewrite Hcount.
  by destruct (fulfilled_results outcomes), (rejected_errors outcomes).
Qed.

(** The whole invocation, once every batch has settled, as a function of
    the batches alone. *)
Lemma mutateBatchAsync_settled mutationFn batchSize fuel items order batches :
  chunkArray fuel items batchSize = Some batches ->
  order ≡ₚ seq 0 (length batches) ->
  mutateBatchAsync mutationFn batchSize fuel items order
  = Some {| calls := batches;
            progress_values :=
              0 :: ((fun k => progress_of k (length batches)) <$> seq 1 (length batches));
            completion :=
              Some (aggregate (length batches)
                      (imap settle_handler (imap mutationFn batches))) |}.
Proof.
  intros Hchunk Hperm. unfold mutateBatchAsync. rewrite Hchunk.
  destruct (Nat.eqb_spec (length batches) 0) as [Hz|Hnz].
  - apply length_zero_iff_nil in Hz. by subst batches.
  - set (outcomes := imap mutationFn batches).
    assert (Hlen : length outcomes = length batches) by apply length_imap.
    set (st0 := {| completedCount := 0; progress_log := [0];
                   settled := replicate (length batches) None |}).
    destruct (on_settled_count (length batches) outcomes order) with (st := st0)
      as [_ Hlog].
    { rewrite Hlen. apply Forall_forall. intros i Hi.
      rewrite Hperm in Hi. apply elem_of_seq in Hi. lia. }
    rewrite Hlog, on_settled_all, Promise_all_filled.
    + simpl. rewrite Hperm, length_seq. done.
    + by rewrite Hlen.
    + subst st0. simpl. by rewrite length_replicate.
Qed.

Lemma all_rejected outcomes :
  (forall (i : nat) o, outcomes !! i = Some o -> exists e, o = Rejected e) ->
  fulfilled_results outcomes = [].
Proof.
  induction outcomes as [|o outcomes IH]; intros Hall; [done|].
  destruct (Hall 0%nat o eq_refl) as [e ->].
  unfold fulfilled_results in *. cbn [omap list_omap].
  apply IH. intros i o' Hi. exact (Hall (S i) o' Hi).
Qed.

Lemma some_fulfilled outcomes (i : nat) d :
  outcomes !! i = Some (Fulfilled d) -> fulfilled_results outcomes <> [].
Proof.
  intros Hi Hnil.
  assert (Hin : d ∈ fulfilled_results outcomes).
  { apply list_elem_of_omap. exists (Fulfilled d). split; [|done].
    by apply list_elem_of_lookup_2 in Hi. }
  rewrite Hnil in Hin. by apply elem_of_nil in Hin.
Qed.

Lemma some_rejected outcomes :
  rejected_errors outcomes <> [] <-> exists (i : nat) e, outcomes !! i = Some (Rejected e).
Proof.
  split.
  - intros Hne. destruct (rejected_errors outcomes) as [|e l] eqn:Hrej; [done|].
    assert (Hin : e ∈ rejected_errors outcomes) by (rewrite Hrej; left).
    apply list_elem_of_omap in Hin as (o & Ho & Hoe).
    destruct o; [done|]. injection Hoe as ->.
    apply list_elem_of_lookup_1 in Ho as [i Hi]. by exists i, e.
  - intros (i & e & Hi) Hnil.
    assert (Hin : e ∈ rejected_errors outcomes).
    { apply list_elem_of_omap. exists (Rejected e). split; [|done].
      by apply list_elem_of_lookup_2 in Hi. }
    rewrite Hnil in Hin. by apply elem_of_nil in Hin.
Qed.

(** C2 (as amended). Once all batches have settled, the result that the
    invocation returns has [totalBatches] equal to the number of batches,
    [completedBatches] equal to the length of [data] (the successes only),
    and the lengths of [data] and [errors] add up to [totalBatches]; with
    three batches of which exactly the one at index 1 fails, the invocation
    returns two data entries, one error, [completedBatches] 2 and
    [totalBatches] 3. *)
Theorem mutateBatchAsync_partial_failure mutationFn batchSize fuel items order batches :
  chunkArray fuel items batchSize = Some batches ->
  order ≡ₚ seq 0 (length batches) ->
  exists inv,
    mutateBatchAsync mutationFn batchSize fuel items order = Some inv
    /\ (forall r, completion inv = Some (Returned r) ->
          totalBatches r = length batches
          /\ completedBatches r = length (data r)
          /\ (length (data r) + length (errors r))%nat = totalBatches r
          /\ (completedBatches r <= totalBatches r)%nat)
    /\ (forall b0 b1 b2 d0 e1 d2,
          batches = [b0; b1; b2] ->
          mutationFn 0%nat b0 = Fulfilled d0 ->
          mutationFn 1%nat b1 = Rejected e1 ->
          mutationFn 2%nat b2 = Fulfilled d2 ->
          completion inv
          = Some (Returned {| data := [d0; d2]; totalBatches := 3;
                              completedBatches := 2; errors := [e1] |})).
Proof.
  intros Hchunk Hperm. eexists. split.
  { by apply mutateBatchAsync_settled. }
  cbn [completion]. rewrite aggregate_by_index.
  set (outcomes := imap mutationFn batches).
  pose proof (settled_partition outcomes) as Hpart.
  assert (Hlen : length outcomes = length batches) by apply length_imap.
  split.
  - intros r Hr. revert Hpart Hr. rewrite Hlen.
    destruct (fulfilled_results outcomes) as [|d ds], (rejected_errors outcomes) as [|e es];
      intros Hpart [= <-]; simpl in *; repeat split; lia.
  - intros b0 b1 b2 d0 e1 d2 -> H0 H1 H2. subst outcomes.
    cbn [imap]. unfold compose. rewrite H0, H1, H2. done.
Qed.

(** C3. When there is at least one batch and every batch fails, the
    invocation throws, and what it throws is the error of the batch at
    index 0; when at least one batch succeeds it returns a result whose
    [data] is non-empty and holds the successes and whose [errors] holds
    the failures (non-empty exactly when some batch failed). *)
Theorem mutateBatchAsync_failure_policy mutationFn batchSize fuel items order batches :
  chunkArray fuel items batchSize = Some batches ->
  order ≡ₚ seq 0 (length batches) ->
  exists inv,
    mutateBatchAsync mutationFn batchSize fuel items order = Some inv
    /\ (batches <> [] ->
        (forall (i : nat) b, batches !! i = Some b -> exists e, mutationFn i b = Rejected e) ->
        exists b0 e0,
          batches !! 0%nat = Some b0 /\ mutationFn 0%nat b0 = Rejected e0
          /\ completion inv = Some (Threw e0))
    /\ ((exists (i : nat) b d, batches !! i = Some b /\ mutationFn i b = Fulfilled d) ->
        exists r,
          completion inv = Some (Returned r)
          /\ data r = fulfilled_results (imap mutationFn batches)
          /\ data r <> []
          /\ errors r = rejected_errors (imap mutationFn batches)
          /\ (errors r <> [] <->
              exists (j : nat) b e, batches !! j = Some b /\ mutationFn j b = Rejected e)).
Proof.
  intros Hchunk Hperm. eexists. split.
  { by apply mutateBatchAsync_settled. }
  cbn [completion]. rewrite aggregate_by_index.
  set (outcomes := imap mutationFn batches).
  assert (Hlookup : forall (i : nat), outcomes !! i = mutationFn i <$> batches !! i).
  { intros i. apply list_lookup_imap. }
  split.
  - intros Hne Hall.
    destruct batches as [|b0 rest] eqn:Hb; [done|].
    destruct (Hall 0%nat b0 eq_refl) as [e0 He0].
    exists b0, e0. repeat split; [done|].
    rewrite all_rejected.
    + subst outcomes. cbn [imap]. rewrite He0. done.
    + intros i o Hi. rewrite Hlookup in Hi.
      destruct ((b0 :: rest) !! i) as [b|] eqn:Hbi; [|done].
      injection Hi as <-. exact (Hall i b Hbi).
  - intros (i & b & d & Hb & Hd).
    assert (Hi : outcomes !! i = Some (Fulfilled d)).
    { by rewrite Hlookup, Hb, <- Hd. }
    pose proof (some_fulfilled outcomes i d Hi) as Hne.
    assert (Hrej : rejected_errors outcomes <> [] <->
              exists (j : nat) b e, batches !! j = Some b /\ mutationFn j b = Rejected e).
    { rewrite some_rejected. split.
      - intros (j & e & Hj). rewrite Hlookup in Hj.
        destruct (batches !! j) as [bj|] eqn:Hbj; [|done].
        injection Hj as Hj. by exists j, bj, e.
      - intros (j & bj & e & Hbj & Hj). exists j, e. by rewrite Hlookup, Hbj, <- Hj. }
    destruct (fulfilled_results outcomes) as [|d' ds] eqn:Hful; [done|].
    eexists. split; [reflexivity|]. by cbn [data errors].
Qed.

(** C6. With no items the invocation returns the empty result at once,
    whatever the batch size: the only value [progress] is set to is 0 and
    the per-batch operation is not called. *)
Theorem mutateBatchAsync_empty mutationFn batchSize fuel order :
  mutateBatchAsync mutationFn batchSize (S fuel) [] order
  = Some {| calls := [];
            progress_values := [0];
            completion := Some (Returned {| data := []; totalBatches := 0;
                                            completedBatches := 0; errors := [] |}) |}.
Proof. reflexivity. Qed.


Lemma progress_values_lookup (n i : nat) p :
  (0 < n)%nat ->
  (0 :: ((fun k => progress_of k n) <$> seq 1 n)) !! i = Some p ->
  (i <= n)%nat /\ p = progress_of i n.
Proof.
  intros Hn Hi. destruct i as [|i].
  - injection Hi as <-. split; [lia|].
    pose proof (progress_of_range 0 n Hn ltac:(lia)).
    pose proof (progress_of_le 0 n 0 1 Hn ltac:(lia) ltac:(lia)) as Hle.
    change (progress_of 0 1) with 0 in Hle. lia.
  - rewrite lookup_cons in Hi.
    rewrite list_lookup_fmap in Hi.
    destruct (seq 1 n !! i) as [k|] eqn:Hk; [|done].
    apply lookup_seq in Hk as [-> Hlt]. injection Hi as <-. split; [lia|done].
Qed.

(** C4 (as amended). The value of [progress] is set to 0 when the
    invocation starts and to [Math.round((c / total) * 100)] when the
    [c]-th batch settles.  These values are integers between 0 and 100,
    they never decrease, and the last one, set when the last batch settles,
    is 100.  With fewer than 200 batches no earlier value is 100; with 200
    batches or more the value is 100 already when one batch is left. *)
Theorem mutateBatchAsync_progress mutationFn batchSize fuel items order batches :
  chunkArray fuel items batchSize = Some batches ->
  order ≡ₚ seq 0 (length batches) ->
  let n := length batches in
  exists inv,
    mutateBatchAsync mutationFn batchSize fuel items order = Some inv
    /\ progress_values inv = 0 :: ((fun c => progress_of c n) <$> seq 1 n)
    /\ (forall p, p ∈ progress_values inv -> 0 <= p <= 100)
    /\ (forall (i j : nat) p q,
          (i <= j)%nat ->
          progress_values inv !! i = Some p ->
          progress_values inv !! j = Some q ->
          p <= q)
    /\ (n = 0%nat -> progress_values inv = [0])
    /\ ((0 < n)%nat -> progress_values inv !! n = Some 100)
    /\ ((n < 200)%nat ->
        forall (i : nat) p, (i < n)%nat -> progress_values inv !! i = Some p -> p < 100)
    /\ ((200 <= n)%nat -> progress_values inv !! (n - 1)%nat = Some 100).
Proof.
  intros Hchunk Hperm n. eexists. split.
  { by apply mutateBatchAsync_settled. }
  cbn [progress_values]. fold n.
  split; [done|].
  destruct (Nat.eq_dec n 0%nat) as [Hz|Hnz].
  { rewrite Hz. cbn [seq fmap list_fmap].
    split; [|split; [|split; [done|split; [lia|split; [lia|lia]]]]].
    - intros p Hp. apply list_elem_of_singleton in Hp. lia.
    - intros [|i] [|j] p q Hij Hi Hj; simplify_eq; try lia; try done. }
  assert (Hn : (0 < n)%nat) by lia.
  split; [|split; [|split; [lia|split; [|split]]]].
  - intros p Hp. apply list_elem_of_lookup_1 in Hp as [i Hi].
    apply progress_values_lookup in Hi as [Hle ->]; [|done].
    by apply progress_of_range.
  - intros i j p q Hij Hi Hj.
    apply progress_values_lookup in Hi as [_ ->]; [|done].
    apply progress_values_lookup in Hj as [_ ->]; [|done].
    by apply progress_of_mono.
  - intros _. destruct n as [|m] eqn:Hm; [lia|].
    rewrite lookup_cons.
    rewrite list_lookup_fmap, lookup_seq_lt by lia. simpl.
    by rewrite progress_of_all by lia.
  - intros Hsmall i p Hi Hp.
    apply progress_values_lookup in Hp as [_ ->]; [|done].
    by apply progress_of_below_100.
  - intros Hlarge. destruct n as [|[|m]] eqn:Hm; [lia|lia|].
    replace (S (S m) - 1)%nat with (S m) by lia.
    rewrite lookup_cons.
    rewrite list_lookup_fmap, lookup_seq_lt by lia. simpl. f_equal.
    apply Z.le_antisymm.
    + apply progress_of_range; lia.
    + change 100 with (progress_of 199 200). apply progress_of_le; lia.
Qed.

End BatchMutationProperties.

(** *** The imperative orchestrator on concrete inputs *)

Lemma mutateBatchAsync_partial_failure_witness :
  exists inv,
    mutateBatchAsync (fail_at [1%nat]) 1 4 [10; 20; 30]%nat [2; 0; 1]%nat = Some inv
    /\ completion inv
       = Some (Returned {| data := [[10]; [30]]%nat; totalBatches := 3;
                           completedBatches := 2; errors := [error_of_batch 1] |}).
Proof.
  destruct (mutateBatchAsync_partial_failure (fail_at [1%nat]) 1 4 [10; 20; 30]%nat
              [2; 0; 1]%nat [[10]; [20]; [30]]%nat eq_refl
              (Permutation_cons_append [0; 1]%nat 2%nat))
    as (inv & Hrun & _ & Hthree).
  exists inv. split; [exact Hrun|].
  exact (Hthree _ _ _ _ _ _ eq_refl eq_refl eq_refl eq_refl).
Defined.

(** Three batches, the one at index 1 fails: [completedBatches] is 2, not
    3, and differs from the sum of the lengths of [data] and [errors]. *)
Lemma partial_failure_completedBatches_is_2 :
  exists inv r,
    mutateBatchAsync (fail_at [1%nat]) 1 4 [10; 20; 30]%nat [2; 0; 1]%nat = Some inv
    /\ completion inv = Some (Returned r)
    /\ length (data r) = 2%nat /\ length (errors r) = 1%nat /\ totalBatches r = 3%nat
    /\ completedBatches r <> 3%nat
    /\ (length (data r) + length (errors r))%nat <> completedBatches r.
Proof.
  eexists. eexists. split; [vm_compute; reflexivity|].
  split; [reflexivity|]. cbn. repeat split; lia.
Qed.

Lemma mutateBatchAsync_failure_policy_witness :
  exists inv,
    mutateBatchAsync (fail_at [0; 1]%nat) 2 4 [10; 20; 30]%nat [1; 0]%nat = Some inv
    /\ completion inv = Some (Threw (error_of_batch 0)).
Proof.
  destruct (mutateBatchAsync_failure_policy (fail_at [0; 1]%nat) 2 4 [10; 20; 30]%nat
              [1; 0]%nat [[10; 20]; [30]]%nat eq_refl (perm_swap 0%nat 1%nat []))
    as (inv & Hrun & Hall & _).
  exists inv. split; [exact Hrun|].
  destruct Hall as (b0 & e0 & Hb0 & He0 & Hthrew).
  - discriminate.
  - intros [|[|i]] b Hb; simpl in Hb; [eexists; reflexivity ..|discriminate].
  - injection Hb0 as <-. injection He0 as <-. exact Hthrew.
Defined.


Lemma mutateBatchAsync_progress_witness :
  exists inv,
    mutateBatchAsync (fail_at [1%nat]) 1 4 [10; 20; 30]%nat [2; 0; 1]%nat = Some inv
    /\ progress_values inv = [0; 33; 67; 100].
Proof.
  destruct (mutateBatchAsync_progress (fail_at [1%nat]) 1 4 [10; 20; 30]%nat
              [2; 0; 1]%nat [[10]; [20]; [30]]%nat eq_refl
              (Permutation_cons_append [0; 1]%nat 2%nat))
    as (inv & Hrun & Hvalues & _).
  exists inv. split; [exact Hrun|]. rewrite Hvalues. vm_compute. reflexivity.
Defined.

(** 201 batches of which 200 have settled: the invocation is still pending
    and the progress is 100 already. *)
Lemma progress_100_before_all_settled :
  exists inv,
    mutateBatchAsync (fail_at []) 1 202 (seq 0 201) (seq 0 200) = Some inv
    /\ length (calls inv) = 201%nat
    /\ completion inv = None
    /\ last (progress_values inv) = Some 100.
Proof. eexists. split; [vm_compute; reflexivity|]. repeat split. Qed.

(** ** The cached orchestrator *)

Section BatchQueryProperties.
Implicit Types (useQueries : list QueryOptions -> list UseQueryResult).
Implicit Types (baseKey : list JsValue) (items : list JsValue).
Implicit Types (batches : list (list JsValue)) (queries : list UseQueryResult).

Lemma query_step_fold queries :
  forall acc : list JsValue * list JsError * nat,
    fold_left query_step queries acc
    = (acc.1.1 ++ omap query_result queries,
       acc.1.2 ++ omap query_failure queries,
       (acc.2 + length (omap query_result queries)
        + length (omap query_failure queries))%nat).
Proof.
  induction queries as [|q queries IH]; intros [[ds es] c].
  - simpl. rewrite !app_nil_r. f_equal. lia.
  - cbn [fold_left]. rewrite IH. unfold query_step, query_result, query_failure.
    cbn [omap list_omap].
    destruct (query_isSuccess q && ToBoolean (query_data q)); cbn [fst snd length].
    + rewrite <- app_assoc. f_equal. simpl. lia.
    + destruct (query_isError q), (query_error q); cbn [fst snd length];
        rewrite <- ?app_assoc; f_equal; simpl; lia.
Qed.

(** The hook, with the aggregation loop replaced by what it computes. *)
Lemma useBatchQuery_unfold useQueries baseKey batchSize fuel items batches :
  chunkArray fuel items batchSize = Some batches ->
  let queries := useQueries (batchQueries baseKey batches) in
  let completedCount :=
    (length (omap query_result queries) + length (omap query_failure queries))%nat in
  useBatchQuery useQueries baseKey batchSize fuel items
  = Some {| result_data :=
              {| data := omap query_result queries;
                 totalBatches := length batches;
                 completedBatches := length (List.filter query_isSuccess queries);
                 errors := omap query_failure queries |};
            progress := if (0 <? length batches)%nat
                        then progress_of completedCount (length batches) else 0;
            isLoading := existsb query_isLoading queries;
            isFetching := existsb query_isFetching queries;
            isSuccess := forallb query_isSuccess queries;
            isError := existsb query_isError queries;
            error := match find query_isError queries with
                     | Some q => query_error q
                     | None => None
                     end;
            batches_queries := queries |}.
Proof.
  intros Hchunk queries completedCount. unfold useBatchQuery. rewrite Hchunk.
  fold queries. rewrite query_step_fold. done.
Qed.

Lemma batchQueries_lookup baseKey batches (i : nat) :
  batchQueries baseKey batches !! i
  = (fun batch => {| queryKey := batchQueryKey baseKey i batch; queryFn_batch := batch |})
    <$> batches !! i.
Proof. unfold batchQueries. apply list_lookup_imap. Qed.

Lemma batchQueryKey_inj baseKey index batch baseKey' index' batch' :
  batchQueryKey baseKey index batch = batchQueryKey baseKey' index' batch' <->
  baseKey = baseKey' /\ index = index' /\ batch = batch'.
Proof.
  unfold batchQueryKey. split.
  - intros Heq. apply app_inj_2 in Heq as [-> Htail]; [|done].
    injection Htail as Hi ->. apply Nat2Z.inj in Hi. done.
  - by intros (-> & -> & ->).
Qed.

(** C8. The hook asks the query library for one query per batch; the key of
    the query of the batch at index [i] is the base key followed by the
    string "batch", the number [i] and the array of the batch's items; and
    the keys of two batches, of the same or of two invocations, are equal
    exactly when the base keys, the indices and the batches are equal. *)
Theorem useBatchQuery_cache_keys
    useQueries baseKey batchSize fuel items batches (i : nat) batch
    baseKey' batchSize' fuel' items' batches' (j : nat) batch' :
  chunkArray fuel items batchSize = Some batches ->
  chunkArray fuel' items' batchSize' = Some batches' ->
  batches !! i = Some batch ->
  batches' !! j = Some batch' ->
  (exists res,
     useBatchQuery useQueries baseKey batchSize fuel items = Some res
     /\ batches_queries res = useQueries (batchQueries baseKey batches))
  /\ queryKey <$> batchQueries baseKey batches !! i
     = Some (baseKey ++ [JsString "batch"; JsNumber (Z.of_nat i); JsArray batch])
  /\ (queryKey <$> batchQueries baseKey batches !! i
      = queryKey <$> batchQueries baseKey' batches' !! j
      <-> baseKey = baseKey' /\ i = j /\ batch = batch').
Proof.
  intros Hchunk Hchunk' Hi Hj. split; [|split].
  - eexists. split; [by apply useBatchQuery_unfold|done].
  - by rewrite batchQueries_lookup, Hi.
  - rewrite !batchQueries_lookup, Hi, Hj. cbn.
    rewrite <- batchQueryKey_inj. split; [by intros [= ->]|by intros ->].
Qed.

(** C9. The overall [isSuccess] is true exactly when every query is in the
    success state, and the top-level [error] is the error of the first
    query, in batch-index order, that is in the error state ([null] when
    there is none), whatever the states of the other queries. *)
Theorem useBatchQuery_status useQueries baseKey batchSize fuel items batches :
  chunkArray fuel items batchSize = Some batches ->
  let queries := useQueries (batchQueries baseKey batches) in
  exists res,
    useBatchQuery useQueries baseKey batchSize fuel items = Some res
    /\ (isSuccess res = true <-> forall q, q ∈ queries -> query_isSuccess q = true)
    /\ (forall (i : nat) q,
          queries !! i = Some q ->
          query_isError q = true ->
          (forall (j : nat) q', (j < i)%nat -> queries !! j = Some q' ->
                                query_isError q' = false) ->
          error res = query_error q)
    /\ ((forall q, q ∈ queries -> query_isError q = false) -> error res = None).
Proof.
  intros Hchunk queries. eexists. split; [by apply useBatchQuery_unfold|].
  cbn [isSuccess error]. fold queries. split; [|split].
  - rewrite forallb_forall. split; intros H q Hq; apply H.
    + by apply list_elem_of_In.
    + by apply list_elem_of_In.
  - intros i q Hi Hq Hbefore.
    assert (Hfind : find query_isError queries = Some q); [|by rewrite Hfind].
    clear -Hi Hq Hbefore. revert i Hi Hbefore.
    induction queries as [|q0 queries IH]; intros i Hi Hbefore; [done|].
    destruct i as [|i].
    + injection Hi as ->. simpl. by rewrite Hq.
    + simpl. rewrite (Hbefore 0%nat q0 ltac:(lia) eq_refl).
      apply (IH i Hi). intros j q' Hj Hq'. apply (Hbefore (S j) q'); [lia|done].
  - intros Hnone.
    destruct (find query_isError queries) as [q|] eqn:Hfind; [|done].
    apply find_some in Hfind as [Hin Herr].
    apply list_elem_of_In in Hin. rewrite (Hnone q Hin) in Herr. done.
Qed.


End BatchQueryProperties.


Section NonPositiveSize.
Context {T : Type}.


End NonPositiveSize.


(** *** The cached orchestrator and the chunker on concrete inputs *)

Lemma useBatchQuery_cache_keys_witness :
  queryKey <$> batchQueries [JsString "users"] [[JsNumber 1; JsNumber 2]; [JsNumber 3]] !! 0%nat
  = queryKey <$> batchQueries [JsString "users"] [[JsNumber 1; JsNumber 2]] !! 0%nat.
Proof.
  apply (useBatchQuery_cache_keys (fun _ => []) [JsString "users"] 2 4
           [JsNumber 1; JsNumber 2; JsNumber 3] [[JsNumber 1; JsNumber 2]; [JsNumber 3]]
           0 [JsNumber 1; JsNumber 2]
           [JsString "users"] 2 4
           [JsNumber 1; JsNumber 2] [[JsNumber 1; JsNumber 2]]
           0 [JsNumber 1; JsNumber 2] eq_refl eq_refl eq_refl eq_refl).
  repeat split.
Defined.

Lemma useBatchQuery_status_witness :
  exists res,
    useBatchQuery
      (fun _ => [query_pending; query_failed (error_of_batch 1);
                 query_succeeded (JsString "ok"); query_failed (error_of_batch 3)])
      [JsString "users"] 1 5 [JsNumber 1; JsNumber 2; JsNumber 3; JsNumber 4] = Some res
    /\ isSuccess res = false
    /\ error res = Some (error_of_batch 1).
Proof.
  destruct (useBatchQuery_status
              (fun _ => [query_pending; query_failed (error_of_batch 1);
                         query_succeeded (JsString "ok"); query_failed (error_of_batch 3)])
              [JsString "users"] 1 5 [JsNumber 1; JsNumber 2; JsNumber 3; JsNumber 4]
              [[JsNumber 1]; [JsNumber 2]; [JsNumber 3]; [JsNumber 4]] eq_refl)
    as (res & Hrun & Hsuccess & Herror & _).
  exists res. split; [exact Hrun|]. split.
  - destruct (isSuccess res); [|reflexivity].
    assert (Hall := proj1 Hsuccess eq_refl query_pending ltac:(left)).
    discriminate Hall.
  - apply (Herror 1%nat (query_failed (error_of_batch 1)) eq_refl eq_refl).
    intros [|j] q' Hj Hq'; [|lia]. by injection Hq' as <-.
Defined.





(** ** The batches that the orchestrators dispatch *)

Section Batches.
Context {T : Type}.
Implicit Types (array : list T) (batches : list (list T)).

Lemma chunkArray_run array size fuel :
  0 < size -> (length array < fuel)%nat ->
  chunkArray fuel array size
  = Some (chunks_from (Z.to_nat (ceil_div (Z.of_nat (length array)) size)) array size 0).
Proof.
  intros Hs Hfuel. unfold chunkArray.
  rewrite chunk_loop_run by lia. by rewrite Z.sub_0_r.
Qed.

Lemma chunkArray_returned array size fuel batches :
  0 < size ->
  chunkArray fuel array size = Some batches ->
  batches = chunks_from (Z.to_nat (ceil_div (Z.of_nat (length array)) size)) array size 0.
Proof.
  intros Hs Hrun.
  pose proof (chunk_loop_fuel_mono _ _ _ (fuel + S (length array))%nat _ _ _ Hrun
                ltac:(lia)) as Hmore.
  fold (chunkArray (fuel + S (length array)) array size) in Hmore.
  rewrite chunkArray_run in Hmore by lia. by injection Hmore.
Qed.

Lemma ceil_div_nonneg n size : 0 < size -> 0 <= n -> 0 <= ceil_div n size.
Proof. intros Hs Hn. unfold ceil_div. apply Z.div_pos; lia. Qed.

(** The batches of a positive size: they partition the array, none is
    empty and none is longer than the size. *)
Lemma batches_of_positive_size array size fuel batches :
  0 < size ->
  chunkArray fuel array size = Some batches ->
  concat batches = array
  /\ Z.of_nat (length batches) = ceil_div (Z.of_nat (length array)) size
  /\ Forall (fun batch => 0 < Z.of_nat (length batch) <= size) batches.
Proof.
  intros Hs Hrun. rewrite (chunkArray_returned _ _ _ _ Hs Hrun).
  set (n := Z.of_nat (length array)).
  set (count := Z.to_nat (ceil_div n size)).
  pose proof (ceil_div_nonneg n size Hs ltac:(lia)) as Hnn.
  pose proof (ceil_div_spec n size Hs ltac:(lia)) as Hceil.
  assert (Hcount : Z.of_nat count = ceil_div n size) by (subst count; lia).
  rewrite <- Hcount in Hceil.
  split; [|split].
  - rewrite chunks_from_concat by lia. simpl. rewrite drop_0.
    apply take_ge. subst n. lia.
  - by rewrite chunks_from_length.
  - apply Forall_lookup. intros k batch Hk.
    assert (Hlt : (k < count)%nat).
    { apply lookup_lt_Some in Hk. by rewrite chunks_from_length in Hk. }
    rewrite chunks_from_lookup in Hk by done. injection Hk as <-.
    rewrite length_take, length_drop.
    assert (Hlen : Z.of_nat (length array) = n) by done. nia.
Qed.

End Batches.

Section BatchMutationCoverage.
Context {TVariables TData : Type}.
Implicit Types (mutationFn : nat -> list TVariables -> Settlement TData).
Implicit Types (items : list TVariables) (batches : list (list TVariables)).
Implicit Types (order : list nat).

Lemma mutateBatchAsync_calls_batches mutationFn batchSize fuel items order batches :
  chunkArray fuel items batchSize = Some batches ->
  exists inv,
    mutateBatchAsync mutationFn batchSize fuel items order = Some inv
    /\ calls inv = batches.
Proof.
  intros Hchunk. unfold mutateBatchAsync. rewrite Hchunk.
  destruct (Nat.eqb_spec (length batches) 0) as [Hz|Hnz].
  - apply length_zero_iff_nil in Hz. subst batches. by eexists.
  - by eexists.
Qed.

(** X1. With a positive batch size every item is handed to the per-batch
    operation exactly once and in order, in ceil(n/batchSize) calls, none of
    them empty and none with more than [batchSize] items, however the
    batches settle afterwards. *)
Theorem mutateBatchAsync_calls_cover_items mutationFn batchSize fuel items order :
  0 < batchSize ->
  (length items < fuel)%nat ->
  exists inv,
    mutateBatchAsync mutationFn batchSize fuel items order = Some inv
    /\ concat (calls inv) = items
    /\ Z.of_nat (length (calls inv)) = ceil_div (Z.of_nat (length items)) batchSize
    /\ Forall (fun batch => 0 < Z.of_nat (length batch) <= batchSize) (calls inv).
Proof.
  intros Hs Hfuel.
  pose proof (chunkArray_run items batchSize fuel Hs Hfuel) as Hchunk.
  destruct (mutateBatchAsync_calls_batches mutationFn _ _ _ order _ Hchunk)
    as (inv & Hrun & Hcalls).
  exists inv. split; [done|]. rewrite Hcalls.
  by apply (batches_of_positive_size items batchSize fuel).
Qed.

Lemma Promise_all_pending {A : Type} (values : list (option A)) (i : nat) :
  values !! i = Some None -> Promise_all values = None.
Proof.
  revert i. induction values as [|v values IH]; intros i Hi; [done|].
  destruct i as [|i]; simpl in *.
  - by injection Hi as ->.
  - rewrite (IH i Hi). by destruct v.
Qed.

(** X2. As long as some batch has not settled the invocation has neither
    returned nor thrown, however many of the other batches have failed. *)
Theorem mutateBatchAsync_pending mutationFn batchSize fuel items order batches (i : nat) :
  chunkArray fuel items batchSize = Some batches ->
  (i < length batches)%nat ->
  i ∉ order ->
  exists inv,
    mutateBatchAsync mutationFn batchSize fuel items order = Some inv
    /\ completion inv = None.
Proof.
  intros Hchunk Hi Hnot. unfold mutateBatchAsync. rewrite Hchunk.
  destruct (Nat.eqb_spec (length batches) 0) as [Hz|Hnz]; [lia|].
  eexists. split; [reflexivity|]. cbn [completion].
  erewrite Promise_all_pending; [done|].
  rewrite on_settled_slots.
  - rewrite decide_False by done. cbn [settled]. by apply lookup_replicate_2.
  - cbn [settled]. by rewrite length_replicate, length_imap.
Qed.

(** X3. Every settlement moves the progress, a failure as much as a
    success: after [k] settlements the values of [progress] are 0 followed
    by [Math.round((c / total) * 100)] for [c] from 1 to [k], whatever the
    per-batch operation answers. *)
Theorem mutateBatchAsync_progress_counts_settlements
    mutationFn batchSize fuel items order batches :
  chunkArray fuel items batchSize = Some batches ->
  batches <> [] ->
  Forall (fun i => i < length batches)%nat order ->
  exists inv,
    mutateBatchAsync mutationFn batchSize fuel items order = Some inv
    /\ progress_values inv
       = 0 :: ((fun c => progress_of c (length batches)) <$> seq 1 (length order)).
Proof.
  intros Hchunk Hne Horder. unfold mutateBatchAsync. rewrite Hchunk.
  destruct (Nat.eqb_spec (length batches) 0) as [Hz|Hnz].
  { apply length_zero_iff_nil in Hz. done. }
  eexists. split; [reflexivity|]. cbn [progress_values].
  set (st0 := {| completedCount := 0; progress_log := [0];
                 settled := replicate (length batches) None |}).
  destruct (on_settled_count (length batches) (imap mutationFn batches) order)
    with (st := st0) as [_ Hlog]; [by rewrite length_imap|].
  by rewrite Hlog.
Qed.

(** X4. When every batch succeeds and all have settled, the invocation
    returns [errors = []] and one data entry per batch, the entry at index
    [i] being the result of batch [i]; [completedBatches] equals
    [totalBatches]. *)
Theorem mutateBatchAsync_all_fulfilled mutationFn batchSize fuel items order batches :
  chunkArray fuel items batchSize = Some batches ->
  order ≡ₚ seq 0 (length batches) ->
  (forall (i : nat) b, batches !! i = Some b -> exists d, mutationFn i b = Fulfilled d) ->
  exists inv r,
    mutateBatchAsync mutationFn batchSize fuel items order = Some inv
    /\ completion inv = Some (Returned r)
    /\ errors r = []
    /\ Fulfilled <$> data r = imap mutationFn batches
    /\ totalBatches r = length batches
    /\ completedBatches r = totalBatches r.
Proof.
  intros Hchunk Hperm Hall.
  assert (Hdata : Fulfilled <$> fulfilled_results (imap mutationFn batches)
                  = imap mutationFn batches
                  /\ rejected_errors (imap mutationFn batches) = []).
  { clear Hchunk Hperm. revert mutationFn Hall.
    induction batches as [|b batches IH]; intros mutationFn Hall; [done|].
    destruct (Hall 0%nat b eq_refl) as [d Hd].
    destruct (IH (mutationFn ∘ S)) as [IHd IHe].
    { intros i b' Hi. exact (Hall (S i) b' Hi). }
    cbn [imap]. rewrite Hd. unfold fulfilled_results, rejected_errors in *.
    cbn [omap list_omap]. rewrite fmap_cons, IHd, IHe. done. }
  destruct Hdata as [Hdata Herrors].
  assert (Hlen : length (fulfilled_results (imap mutationFn batches)) = length batches).
  { rewrite <- (length_fmap Fulfilled), Hdata. apply length_imap. }
  rewrite (mutateBatchAsync_settled _ _ _ _ order batches Hchunk Hperm).
  rewrite aggregate_by_index, Herrors.
  destruct (fulfilled_results (imap mutationFn batches)) as [|d ds] eqn:Hful;
    eexists; eexists; (split; [reflexivity|]); (split; [reflexivity|]); by cbn.
Qed.

(** X5. With a positive batch size a returned result has [totalBatches]
    equal to ceil(n / batchSize), and the lengths of [data] and [errors] add
    up to that number. *)
Theorem mutateBatchAsync_totalBatches mutationFn batchSize fuel items order batches :
  0 < batchSize ->
  chunkArray fuel items batchSize = Some batches ->
  order ≡ₚ seq 0 (length batches) ->
  exists inv,
    mutateBatchAsync mutationFn batchSize fuel items order = Some inv
    /\ forall r, completion inv = Some (Returned r) ->
         Z.of_nat (totalBatches r) = ceil_div (Z.of_nat (length items)) batchSize
         /\ Z.of_nat (length (data r) + length (errors r))
            = ceil_div (Z.of_nat (length items)) batchSize.
Proof.
  intros Hs Hchunk Hperm.
  destruct (batches_of_positive_size items batchSize fuel batches Hs Hchunk)
    as (_ & Hcount & _).
  eexists. split; [by apply mutateBatchAsync_settled|].
  cbn [completion]. rewrite aggregate_by_index.
  set (outcomes := imap mutationFn batches).
  pose proof (settled_partition outcomes) as Hpart.
  assert (Hlen : length outcomes = length batches) by apply length_imap.
  rewrite Hlen in Hpart. clear Hlen. revert Hpart. intros Hpart r.
  destruct (fulfilled_results outcomes) as [|d ds], (rejected_errors outcomes) as [|e es];
    intros [= <-]; simpl in *; split; lia.
Qed.

End BatchMutationCoverage.

(** ** The view of the cached orchestrator *)

Section BatchQueryCoverage.
Implicit Types (useQueries : list QueryOptions -> list UseQueryResult).
Implicit Types (baseKey : list JsValue) (items : list JsValue).
Implicit Types (batches : list (list JsValue)) (queries : list UseQueryResult).

Lemma batchQueries_batches baseKey batches :
  queryFn_batch <$> batchQueries baseKey batches = batches.
Proof.
  apply list_eq. intros i.
  rewrite list_lookup_fmap, batchQueries_lookup.
  by destruct (batches !! i).
Qed.

(** X6. With a positive batch size the hook asks the query library for one
    query per batch, in batch order; the batches that the queries fetch
    partition the items, none is empty and none is longer than
    [batchSize]. *)
Theorem useBatchQuery_queries_cover_items useQueries baseKey batchSize fuel items :
  0 < batchSize ->
  (length items < fuel)%nat ->
  exists res options,
    useBatchQuery useQueries baseKey batchSize fuel items = Some res
    /\ batches_queries res = useQueries options
    /\ concat (queryFn_batch <$> options) = items
    /\ Z.of_nat (length options) = ceil_div (Z.of_nat (length items)) batchSize
    /\ Forall (fun o => 0 < Z.of_nat (length (queryFn_batch o)) <= batchSize) options.
Proof.
  intros Hs Hfuel.
  pose proof (chunkArray_run items batchSize fuel Hs Hfuel) as Hchunk.
  destruct (batches_of_positive_size items batchSize fuel _ Hs Hchunk)
    as (Hcat & Hcount & Hsizes).
  set (batches := chunks_from _ _ _ _) in *.
  eexists. exists (batchQueries baseKey batches).
  split; [by apply useBatchQuery_unfold|]. split; [done|].
  rewrite batchQueries_batches. split; [done|]. split.
  - unfold batchQueries. by rewrite length_imap.
  - rewrite <- (batchQueries_batches baseKey batches) in Hsizes.
    by apply Forall_fmap in Hsizes.
Qed.

Lemma query_settled_count queries :
  (length (omap query_result queries) + length (omap query_failure queries)
   <= length queries)%nat
  /\ ((forall q, q ∈ queries -> is_Some (query_result q) \/ is_Some (query_failure q)) ->
      (length (omap query_result queries) + length (omap query_failure queries))%nat
      = length queries).
Proof.
  induction queries as [|q queries [IHle IHeq]]; [done|].
  assert (Hexcl : query_result q = None \/ query_failure q = None).
  { unfold query_result, query_failure.
    destruct (query_isSuccess q && ToBoolean (query_data q)); auto. }
  cbn [omap list_omap]. split.
  - destruct (query_result q), (query_failure q), Hexcl; simplify_eq; simpl; lia.
  - intros Hall.
    assert (Hrest : (length (omap query_result queries)
                     + length (omap query_failure queries))%nat = length queries).
    { apply IHeq. intros q' Hq'. apply Hall. by right. }
    pose proof (Hall q ltac:(left)) as Hq.
    destruct (query_result q) as [v|], (query_failure q) as [e|]; simpl.
    + by destruct Hexcl.
    + lia.
    + lia.
    + destruct Hq as [[? ?]|[? ?]]; done.
Qed.

(** X7. When the query library returns one state per query, the progress
    of the view lies between 0 and 100, the lengths of [data] and [errors]
    add up to at most [totalBatches], and once every query has either truthy
    data in the success state or an error in the error state, with at least
    one batch, the progress is 100. *)
Theorem useBatchQuery_progress_range useQueries baseKey batchSize fuel items batches :
  chunkArray fuel items batchSize = Some batches ->
  let queries := useQueries (batchQueries baseKey batches) in
  length queries = length batches ->
  exists res,
    useBatchQuery useQueries baseKey batchSize fuel items = Some res
    /\ 0 <= progress res <= 100
    /\ (length (data (result_data res)) + length (errors (result_data res))
        <= totalBatches (result_data res))%nat
    /\ (batches <> [] ->
        (forall q, q ∈ queries -> is_Some (query_result q) \/ is_Some (query_failure q)) ->
        progress res = 100).
Proof.
  intros Hchunk queries Hlen. eexists. split; [by apply useBatchQuery_unfold|].
  cbn [progress result_data data errors totalBatches]. fold queries.
  destruct (query_settled_count queries) as [Hle Heq]. rewrite Hlen in Hle, Heq.
  split; [|split; [done|]].
  - destruct (Nat.ltb_spec 0 (length batches)); [|lia].
    by apply progress_of_range.
  - intros Hne Hall.
    assert (Hpos : (0 < length batches)%nat).
    { destruct batches; [done|simpl; lia]. }
    destruct (Nat.ltb_spec 0 (length batches)); [|lia].
    rewrite Heq by done. by apply progress_of_all.
Qed.

(** X8. With no items, and a query library that returns no state for no
    query, the view is the empty result with progress 0; it reports overall
    success, no error and nothing loading. *)
Theorem useBatchQuery_empty useQueries baseKey batchSize fuel :
  useQueries [] = [] ->
  useBatchQuery useQueries baseKey batchSize (S fuel) []
  = Some {| result_data := {| data := []; totalBatches := 0;
                              completedBatches := 0; errors := [] |};
            progress := 0;
            isLoading := false; isFetching := false;
            isSuccess := true; isError := false; error := None;
            batches_queries := [] |}.
Proof.
  intros Hnone.
  rewrite (useBatchQuery_unfold useQueries baseKey batchSize (S fuel) [] [] eq_refl).
  cbn [batchQueries imap]. rewrite Hnone. reflexivity.
Qed.

(** X9. When the view reports overall success and no query is in the
    success and in the error state at once, the view has no error: [isError]
    is false, [error] is null, [errors] is empty, and [completedBatches] is
    the number of queries. *)
Theorem useBatchQuery_success_consistent useQueries baseKey batchSize fuel items batches :
  chunkArray fuel items batchSize = Some batches ->
  let queries := useQueries (batchQueries baseKey batches) in
  (forall q, q ∈ queries -> query_isSuccess q = true -> query_isError q = false) ->
  exists res,
    useBatchQuery useQueries baseKey batchSize fuel items = Some res
    /\ (isSuccess res = true ->
        isError res = false
        /\ error res = None
        /\ errors (result_data res) = []
        /\ completedBatches (result_data res) = length queries).
Proof.
  intros Hchunk queries Hexcl. eexists. split; [by apply useBatchQuery_unfold|].
  cbn [isSuccess isError error result_data errors completedBatches]. fold queries.
  intros Hsuccess. rewrite forallb_forall in Hsuccess.
  assert (Hnone : forall q, q ∈ queries -> query_isSuccess q = true /\ query_isError q = false).
  { intros q Hq. assert (query_isSuccess q = true) by (apply Hsuccess; by apply list_elem_of_In).
    split; [done|by apply Hexcl]. }
  clear Hsuccess Hexcl. clearbody queries.
  induction queries as [|q queries IH]; [done|].
  destruct (Hnone q ltac:(left)) as [Hs He].
  destruct IH as (IH1 & IH2 & IH3 & IH4).
  { intros q' Hq'. apply Hnone. by right. }
  cbn [existsb find omap list_omap List.filter]. rewrite He, Hs. cbn [orb length].
  repeat split; [done|exact IH2| |by f_equal].
  unfold query_failure at 1. rewrite He.
  by destruct (query_isSuccess q && ToBoolean (query_data q)).
Qed.

(** X10. When every query is in the success state with truthy data and the
    library returns one state per query, [data] holds the data of the
    queries in batch order, [errors] is empty, [completedBatches] equals
    [totalBatches], the view reports overall success and, with at least one
    batch, the progress is 100. *)
Theorem useBatchQuery_all_succeeded useQueries baseKey batchSize fuel items batches :
  chunkArray fuel items batchSize = Some batches ->
  let queries := useQueries (batchQueries baseKey batches) in
  length queries = length batches ->
  (forall q, q ∈ queries ->
     query_isSuccess q = true /\ ToBoolean (query_data q) = true) ->
  exists res,
    useBatchQuery useQueries baseKey batchSize fuel items = Some res
    /\ data (result_data res) = query_data <$> queries
    /\ errors (result_data res) = []
    /\ completedBatches (result_data res) = totalBatches (result_data res)
    /\ isSuccess res = true
    /\ (batches <> [] -> progress res = 100).
Proof.
  intros Hchunk queries Hlen Hall. eexists. split; [by apply useBatchQuery_unfold|].
  cbn [isSuccess progress result_data data errors completedBatches totalBatches].
  fold queries.
  assert (Hres : omap query_result queries = query_data <$> queries
                 /\ omap query_failure queries = []
                 /\ List.filter query_isSuccess queries = queries
                 /\ forallb query_isSuccess queries = true).
  { clear Hlen. clearbody queries.
    induction queries as [|q queries IH]; [done|].
    destruct (Hall q ltac:(left)) as [Hs Ht].
    destruct IH as (IH1 & IH2 & IH3 & IH4).
    { intros q' Hq'. apply Hall. by right. }
    cbn [omap list_omap List.filter forallb]. unfold query_result at 1, query_failure at 1.
    rewrite Hs, Ht. cbn [andb]. rewrite IH1, IH2, IH3, IH4. done. }
  destruct Hres as (-> & -> & -> & ->).
  repeat split; [done|].
  intros Hne.
  assert (Hpos : (0 < length batches)%nat).
  { destruct batches; [done|simpl; lia]. }
  destruct (Nat.ltb_spec 0 (length batches)); [|lia].
  rewrite length_fmap, Hlen. cbn [length]. rewrite Nat.add_0_r.
  by apply progress_of_all.
Qed.

End BatchQueryCoverage.

(** ** Batches shared by two invocations *)

Section SharedBatches.
Context {T : Type}.
Implicit Types (common rest : list T).

Lemma shared_batch common rest size fuel batches (i : nat) :
  0 < size ->
  chunkArray fuel (common ++ rest) size = Some batches ->
  Z.of_nat (S i) * size <= Z.of_nat (length common) ->
  batches !! i
  = Some (take (Z.to_nat size) (drop (Z.to_nat (Z.of_nat i * size)) common)).
Proof.
  intros Hs Hrun Hi. rewrite (chunkArray_returned _ _ _ _ Hs Hrun).
  set (n := Z.of_nat (length (common ++ rest))).
  assert (Hn : Z.of_nat (length common) <= n).
  { subst n. rewrite length_app. lia. }
  pose proof (ceil_div_nonneg n size Hs ltac:(lia)) as Hnn.
  pose proof (ceil_div_spec n size Hs ltac:(lia)) as Hceil.
  rewrite chunks_from_lookup by nia.
  rewrite Z.add_0_l. f_equal.
  rewrite drop_app_le by nia.
  apply take_app_le. rewrite length_drop. nia.
Qed.

End SharedBatches.

(** X11. Two invocations whose item lists share a prefix pass the same
    query, with the same key and the same batch, for every batch that lies
    within the shared prefix, so the cache serves that batch to both. *)
Theorem useBatchQuery_shared_prefix
    baseKey batchSize fuel fuel' (common rest rest' : list JsValue)
    batches batches' (i : nat) :
  0 < batchSize ->
  chunkArray fuel (common ++ rest) batchSize = Some batches ->
  chunkArray fuel' (common ++ rest') batchSize = Some batches' ->
  Z.of_nat (S i) * batchSize <= Z.of_nat (length common) ->
  exists options,
    batchQueries baseKey batches !! i = Some options
    /\ batchQueries baseKey batches' !! i = Some options
    /\ queryFn_batch options
       = take (Z.to_nat batchSize) (drop (Z.to_nat (Z.of_nat i * batchSize)) common).
Proof.
  intros Hs Hrun Hrun' Hi. eexists.
  rewrite !batchQueries_lookup.
  rewrite (shared_batch common rest batchSize fuel batches i Hs Hrun Hi).
  rewrite (shared_batch common rest' batchSize fuel' batches' i Hs Hrun' Hi).
  done.
Qed.

(** ** The users API and the demo page *)

Section Strings.
Local Open Scope string_scope.

Lemma trimStart_head s :
  trimStart s = "" \/ exists c t, trimStart s = String c t /\ is_whitespace c = false.
Proof.
  induction s as [|c s IH]; [by left|]. simpl.
  destruct (is_whitespace c) eqn:Hc; [done|]. right. by exists c, s.
Qed.

Lemma trimStart_fixed c s : is_whitespace c = false -> trimStart (String c s) = String c s.
Proof. intros Hc. simpl. by rewrite Hc. Qed.

Lemma trimEnd_head c s :
  is_whitespace c = false -> exists t, trimEnd (String c s) = String c t.
Proof. intros Hc. simpl. destruct (trimEnd s); rewrite ?Hc; eauto. Qed.

Lemma trimEnd_idem s : trimEnd (trimEnd s) = trimEnd s.
Proof.
  induction s as [|c s IH]; [done|]. simpl.
  destruct (trimEnd s) as [|c' t] eqn:Ht.
  - destruct (is_whitespace c) eqn:Hc; [done|]. simpl. by rewrite Hc.
  - remember (String c' t) as u eqn:Hu. simpl. rewrite IH. by subst u.
Qed.

Lemma trim_idem s : trim (trim s) = trim s.
Proof.
  unfold trim. destruct (trimStart_head s) as [->|(c & t & -> & Hc)]; [done|].
  destruct (trimEnd_head c t Hc) as [u Hu]. rewrite Hu.
  rewrite (trimStart_fixed c u Hc), <- Hu. apply trimEnd_idem.
Qed.

Lemma trimStart_chars s c : In c (chars (trimStart s)) -> In c (chars s).
Proof.
  induction s as [|c' s IH]; [done|]. simpl.
  destruct (is_whitespace c'); [|done]. intros Hin. right. by apply IH.
Qed.

Lemma trimEnd_chars s c : In c (chars (trimEnd s)) -> In c (chars s).
Proof.
  induction s as [|c' s IH]; [done|]. simpl.
  destruct (trimEnd s) as [|c'' t].
  - destruct (is_whitespace c'); [done|]. simpl. tauto.
  - intros [->|Hin]; [by left|]. right. by apply IH.
Qed.

Lemma trim_chars s c : In c (chars (trim s)) -> In c (chars s).
Proof. intros Hin. by apply trimStart_chars, trimEnd_chars. Qed.

Lemma split_nonempty sep s : split sep s <> [].
Proof.
  destruct s as [|c s]; [done|]. simpl.
  destruct (Ascii.eqb c sep); [done|]. by destruct (split sep s).
Qed.

Lemma split_no_separator sep s part :
  In part (split sep s) -> ~ In sep (chars part).
Proof.
  revert part. induction s as [|c s IH]; intros part Hin.
  - destruct Hin as [<-|[]]. simpl. tauto.
  - simpl in Hin. destruct (Ascii.eqb_spec c sep) as [->|Hne].
    + destruct Hin as [<-|Hin]; [simpl; tauto|by apply IH].
    + destruct (split sep s) as [|first parts] eqn:Hs.
      { by destruct (split_nonempty sep s). }
      destruct Hin as [<-|Hin].
      * simpl. intros [Heq|Hin]; [done|]. apply (IH first); [by left|done].
      * apply IH. by right.
Qed.

(** X12. Every id that the demo pages read from the text is non-empty, has
    no white space at either end and contains no line feed. *)
Theorem parse_ids_clean text id :
  In id (parse_ids text) ->
  id <> "" /\ trim id = id /\ ~ In line_feed (chars id).
Proof.
  unfold parse_ids. intros Hin. apply filter_In in Hin as [Hin Hne].
  apply list_elem_of_In, list_elem_of_fmap in Hin as (line & -> & Hline).
  apply list_elem_of_In in Hline. split; [|split].
  - intros Heq. rewrite Heq in Hne. done.
  - apply trim_idem.
  - intros Hlf. apply trim_chars in Hlf.
    by apply (split_no_separator line_feed text line).
Qed.

Lemma trim_blank s :
  (forall c, In c (chars s) -> is_whitespace c = true) -> trim s = "".
Proof.
  intros Hall. unfold trim.
  assert (Hstart : trimStart s = ""); [|by rewrite Hstart].
  induction s as [|c s IH]; [done|]. simpl.
  rewrite (Hall c ltac:(by left)). apply IH. intros c' Hc'. apply Hall. by right.
Qed.

Lemma split_chars sep s part c :
  In part (split sep s) -> In c (chars part) -> In c (chars s).
Proof.
  revert part. induction s as [|c' s IH]; intros part Hin Hc.
  - destruct Hin as [<-|[]]. done.
  - simpl in Hin. destruct (Ascii.eqb c' sep).
    + destruct Hin as [<-|Hin]; [done|]. right. by apply (IH part).
    + destruct (split sep s) as [|first parts] eqn:Hs.
      { by destruct (split_nonempty sep s). }
      destruct Hin as [<-|Hin].
      * destruct Hc as [->|Hc]; [by left|]. right. apply (IH first); [by left|done].
      * right. apply (IH part); [by right|done].
Qed.

Lemma parse_ids_blank text :
  (forall c, In c (chars text) -> is_whitespace c = true) -> parse_ids text = [].
Proof.
  intros Hall. unfold parse_ids.
  assert (Hlines : forall line, In line (split line_feed text) -> trim line = "").
  { intros line Hline. apply trim_blank. intros c Hc.
    apply Hall. by apply (split_chars line_feed text line). }
  induction (split line_feed text) as [|line lines IH]; [done|].
  rewrite fmap_cons. cbn [List.filter].
  rewrite (Hlines line ltac:(by left)). cbn. apply IH.
  intros l Hl. apply Hlines. by right.
Qed.

(** X13. A text of white space only (the empty text included) makes
    [handleLoadUsers] ask for ids: nothing is loaded and the users API is
    not called. *)
Theorem handleLoadUsers_blank fuel text order :
  (forall c, In c (chars text) -> is_whitespace c = true) ->
  parse_ids text = [] /\ handleLoadUsers fuel text order = Some (None, EnterIds).
Proof.
  intros Hall. pose proof (parse_ids_blank text Hall) as Hids.
  split; [done|]. unfold handleLoadUsers. by rewrite Hids.
Qed.

End Strings.

Section RoundTrip.
Local Open Scope string_scope.

Lemma chars_append s t : chars (s ++ t) = (chars s ++ chars t)%list.
Proof. induction s as [|c s IH]; [done|]. simpl. by rewrite <- IH. Qed.

Lemma split_part sep s :
  ~ In sep (chars s) -> split sep s = [s].
Proof.
  induction s as [|c s IH]; intros Hsep; [done|]. simpl.
  destruct (Ascii.eqb_spec c sep) as [->|Hne].
  - destruct Hsep. by left.
  - rewrite IH; [done|]. intros Hin. apply Hsep. by right.
Qed.

Lemma split_first sep s rest :
  ~ In sep (chars s) ->
  split sep (s ++ String sep rest) = s :: split sep rest.
Proof.
  induction s as [|c s IH]; intros Hsep.
  - simpl. by rewrite Ascii.eqb_refl.
  - simpl. destruct (Ascii.eqb_spec c sep) as [->|Hne].
    + destruct Hsep. by left.
    + rewrite IH; [done|]. intros Hin. apply Hsep. by right.
Qed.

(** [parts.join(sep).split(sep)] gives the parts back when there is at
    least one and none contains the separator. *)
Lemma split_join sep parts :
  parts <> [] ->
  Forall (fun part => ~ In sep (chars part)) parts ->
  split sep (String.concat (String sep "") parts) = parts.
Proof.
  intros Hne Hall. induction Hall as [|part parts Hpart Hparts IH]; [done|].
  destruct parts as [|part' parts].
  - simpl. by apply split_part.
  - change (String.concat (String sep "") (part :: part' :: parts))
      with (part ++ String sep (String.concat (String sep "") (part' :: parts))).
    rewrite split_first by done. by rewrite IH.
Qed.

Lemma clean_ids_kept ids :
  Forall (fun id => id <> "" /\ trim id = id /\ ~ In line_feed (chars id)) ids ->
  List.filter (fun id => negb (String.eqb id "")) (trim <$> ids) = ids.
Proof.
  induction 1 as [|id ids (Hne & Htrim & _) _ IH]; [done|].
  rewrite fmap_cons, Htrim. cbn [List.filter].
  destruct (String.eqb_spec id ""); [done|]. cbn. by rewrite IH.
Qed.

(** X14. Reading ids back from their [join('\n')]: when every id is
    non-empty, has no white space at either end and contains no line feed,
    the demo pages read exactly those ids, in order. *)
Theorem parse_ids_join ids :
  Forall (fun id => id <> "" /\ trim id = id /\ ~ In line_feed (chars id)) ids ->
  parse_ids (String.concat (String line_feed "") ids) = ids.
Proof.
  intros Hall. unfold parse_ids.
  destruct ids as [|id ids]; [done|].
  rewrite split_join; [by apply clean_ids_kept|done|].
  eapply Forall_impl; [exact Hall|]. by intros id0 (_ & _ & Hlf).
Qed.

Lemma trimStart_no_whitespace s :
  (forall c, In c (chars s) -> is_whitespace c = false) -> trimStart s = s.
Proof.
  intros Hall. destruct s as [|c s]; [done|]. simpl.
  by rewrite (Hall c ltac:(by left)).
Qed.

Lemma trimEnd_no_whitespace s :
  (forall c, In c (chars s) -> is_whitespace c = false) -> trimEnd s = s.
Proof.
  induction s as [|c s IH]; intros Hall; [done|]. simpl.
  rewrite IH by (intros c' Hc'; apply Hall; by right).
  destruct s; [|done]. by rewrite (Hall c ltac:(by left)).
Qed.

Lemma no_whitespace_clean s :
  s <> "" ->
  (forall c, In c (chars s) -> is_whitespace c = false) ->
  s <> "" /\ trim s = s /\ ~ In line_feed (chars s).
Proof.
  intros Hne Hall. split; [done|]. split.
  - unfold trim. by rewrite trimStart_no_whitespace, trimEnd_no_whitespace.
  - intros Hlf. by specialize (Hall line_feed Hlf).
Qed.

Lemma decimal_no_whitespace (n : nat) c :
  In c (chars (decimal n)) -> is_whitespace c = false.
Proof.
  unfold decimal. generalize (Nat.to_uint n). intros u.
  induction u; simpl; intros Hin; try done;
    (destruct Hin as [<-|Hin]; [done|by apply IHu]).
Qed.

Lemma generated_id_clean (i : nat) :
  let id := "user_" ++ decimal (i + 1) in
  id <> "" /\ trim id = id /\ ~ In line_feed (chars id).
Proof.
  intros id. apply no_whitespace_clean; [done|].
  intros c Hc. subst id. rewrite chars_append in Hc.
  apply in_app_or in Hc as [Hc|Hc].
  - simpl in Hc. repeat (destruct Hc as [<-|Hc]; [done|]). done.
  - by apply (decimal_no_whitespace (i + 1)).
Qed.

Lemma generated_ids_parse count :
  parse_ids (generateTestIds count) = generateTestIds_ids count.
Proof.
  assert (Hclean : Forall (fun id => id <> "" /\ trim id = id /\ ~ In line_feed (chars id))
                     (generateTestIds_ids count)).
  { unfold generateTestIds_ids. apply Forall_fmap, Forall_forall.
    intros i _. apply generated_id_clean. }
  unfold generateTestIds, parse_ids.
  destruct (generateTestIds_ids count) as [|id ids]; [done|].
  rewrite split_join; [by apply clean_ids_kept|done|].
  eapply Forall_impl; [exact Hclean|]. by intros id0 (_ & _ & Hlf).
Qed.

(** X15. The text that [generateTestIds] puts into the input is read back
    as the ids [user_1] ... [user_count]: [count] ids in that order. *)
Theorem generateTestIds_parse count :
  parse_ids (generateTestIds count) = generateTestIds_ids count
  /\ length (generateTestIds_ids count) = count
  /\ forall i : nat, (i < count)%nat ->
       generateTestIds_ids count !! i = Some ("user_" ++ decimal (i + 1)).
Proof.
  split; [|split].
  - apply generated_ids_parse.
  - unfold generateTestIds_ids. by rewrite length_fmap, length_seq.
  - intros i Hi. unfold generateTestIds_ids.
    by rewrite list_lookup_fmap, lookup_seq_lt.
Qed.

End RoundTrip.

Section LoadUsers.

Lemma fetched_results (batches : list (list string)) :
  fulfilled_results
    (imap (fun (_ : nat) userIdsBatch => Fulfilled (fetchUsersByIds userIdsBatch)) batches)
  = fetchUsersByIds <$> batches
  /\ rejected_errors
       (imap (fun (_ : nat) userIdsBatch => Fulfilled (fetchUsersByIds userIdsBatch)) batches)
     = [].
Proof.
  change (fun (_ : nat) userIdsBatch => Fulfilled (fetchUsersByIds userIdsBatch))
    with (@const _ nat (fun userIdsBatch : list string =>
                          @Fulfilled UsersResponse (fetchUsersByIds userIdsBatch))).
  rewrite imap_const. unfold fulfilled_results, rejected_errors.
  induction batches as [|b batches [IHd IHe]]; [done|].
  rewrite !fmap_cons. cbn [omap list_omap]. by rewrite IHd, IHe.
Qed.

Lemma fetched_users (batches : list (list string)) :
  concat (users <$> (fetchUsersByIds <$> batches))
  = (fun id => {| user_id := id; user_fullName := String.append "User " id |})
    <$> concat batches.
Proof.
  induction batches as [|b batches IH]; [done|].
  rewrite !fmap_cons. cbn [concat]. by rewrite fmap_app, IH.
Qed.

(** What [handleLoadUsers] does with a non-empty list of ids once all
    batches have settled. *)
Lemma handleLoadUsers_settled fuel text order :
  let ids := parse_ids text in
  let batchCount := Z.to_nat (ceil_div (Z.of_nat (length ids)) 500) in
  ids <> [] ->
  (length ids < fuel)%nat ->
  order ≡ₚ seq 0 batchCount ->
  handleLoadUsers fuel text order
  = Some (Some ((fun id => {| user_id := id; user_fullName := String.append "User " id |})
                <$> ids),
          LoadedAll (length ids) batchCount).
Proof.
  intros ids batchCount Hne Hfuel Hperm.
  pose proof (chunkArray_run ids 500 fuel ltac:(lia) Hfuel) as Hchunk.
  fold batchCount in Hchunk.
  set (batches := chunks_from batchCount ids 500 0) in *.
  assert (Hcount : length batches = batchCount) by apply chunks_from_length.
  destruct (batches_of_positive_size ids 500 fuel batches ltac:(lia) Hchunk)
    as (Hcat & _ & _).
  assert (Hbatches : batches <> []).
  { intros Hnil. rewrite Hnil in Hcat. simpl in Hcat. by subst ids. }
  rewrite <- Hcount in Hperm.
  unfold handleLoadUsers. fold ids.
  destruct (Nat.eqb_spec (length ids) 0) as [Hz|_].
  { apply length_zero_iff_nil in Hz. done. }
  unfold useUsersBatch_mutateBatchAsync.
  rewrite (mutateBatchAsync_settled _ _ _ _ order batches Hchunk Hperm).
  cbn [completion]. rewrite aggregate_by_index.
  destruct (fetched_results batches) as [-> ->].
  destruct (fetchUsersByIds <$> batches) as [|response responses] eqn:Hresponses.
  { apply fmap_nil_inv in Hresponses. done. }
  cbn [data errors totalBatches length Nat.ltb Nat.leb].
  rewrite <- Hresponses, fetched_users, Hcat.
  by rewrite length_fmap, Hcount.
Qed.

(** X16. Loading through the demo page: when the text holds at least one
    id and all batches have settled, [handleLoadUsers] stores one user per
    id, in the order of the ids, each named "User " followed by its id, and
    reports success with ceil(n/500) batches. *)
Theorem handleLoadUsers_loads_all fuel text order :
  let ids := parse_ids text in
  let batchCount := Z.to_nat (ceil_div (Z.of_nat (length ids)) 500) in
  ids <> [] ->
  (length ids < fuel)%nat ->
  order ≡ₚ seq 0 batchCount ->
  exists allUsers,
    handleLoadUsers fuel text order
    = Some (Some allUsers, LoadedAll (length ids) batchCount)
    /\ user_id <$> allUsers = ids
    /\ user_fullName <$> allUsers = String.append "User " <$> ids.
Proof.
  intros ids batchCount Hne Hfuel Hperm.
  eexists. split.
  - by apply handleLoadUsers_settled.
  - fold ids. rewrite <- !list_fmap_compose. split; [|done].
    apply list_fmap_id.
Qed.

(** X17. Generating ids and loading them: for a positive [count] the page
    loads the users [user_1] ... [user_count], [count] of them, in
    ceil(count/500) batches. *)
Theorem generate_then_load fuel count order :
  let batchCount := Z.to_nat (ceil_div (Z.of_nat count) 500) in
  (0 < count < fuel)%nat ->
  order ≡ₚ seq 0 batchCount ->
  exists allUsers,
    handleLoadUsers fuel (generateTestIds count) order
    = Some (Some allUsers, LoadedAll count batchCount)
    /\ user_id <$> allUsers = generateTestIds_ids count.
Proof.
  intros batchCount [Hpos Hfuel] Hperm.
  assert (Hlen : length (generateTestIds_ids count) = count).
  { unfold generateTestIds_ids. by rewrite length_fmap, length_seq. }
  pose proof (handleLoadUsers_settled fuel (generateTestIds count) order) as Hload.
  cbv zeta in Hload. rewrite generated_ids_parse, Hlen in Hload.
  eexists. split.
  - apply Hload; [|lia|done].
    intros Hnil. rewrite Hnil in Hlen. simpl in Hlen. lia.
  - rewrite <- list_fmap_compose. apply list_fmap_id.
Qed.

(** X18. The users service takes at most 500 ids per request:
    [useUsersBatch] calls it with every id exactly once, in order, and with
    between 1 and 500 ids per call. *)
Theorem useUsersBatch_request_limit fuel (userIds : list string) order :
  (length userIds < fuel)%nat ->
  exists inv,
    useUsersBatch_mutateBatchAsync fuel userIds order = Some inv
    /\ concat (calls inv) = userIds
    /\ Forall (fun userIdsBatch => (1 <= length userIdsBatch <= 500)%nat) (calls inv).
Proof.
  intros Hfuel. unfold useUsersBatch_mutateBatchAsync.
  pose proof (chunkArray_run userIds 500 fuel ltac:(lia) Hfuel) as Hchunk.
  destruct (mutateBatchAsync_calls_batches
              (fun (_ : nat) userIdsBatch => Fulfilled (fetchUsersByIds userIdsBatch))
              _ _ _ order _ Hchunk) as (inv & Hrun & Hcalls).
  exists inv. split; [done|]. rewrite Hcalls.
  destruct (batches_of_positive_size userIds 500 fuel _ ltac:(lia) Hchunk)
    as (Hcat & _ & Hsizes).
  split; [done|]. eapply Forall_impl; [exact Hsizes|]. intros b Hb. simpl in Hb. lia.
Qed.

End LoadUsers.

(** ** Names *)

Section Names.
Local Open Scope string_scope.

Lemma shortenFullName_parts fullName :
  shortenFullName fullName
  = match split space (trim fullName) with
    | [] => fullName
    | [p0] => p0
    | [p0; p1] => p0 ++ String space (first_char p1 ++ ".")
    | p0 :: p1 :: p2 :: _ =>
        p0 ++ String space (first_char p1 ++ "." ++ first_char p2 ++ ".")
    end.
Proof. reflexivity. Qed.


(** X20. White space around a name does not matter to [shortenFullName],
    and a name that has no space inside, once trimmed, is returned
    trimmed. *)
Theorem shortenFullName_trim fullName :
  shortenFullName (trim fullName) = shortenFullName fullName
  /\ (~ In space (chars (trim fullName)) -> shortenFullName fullName = trim fullName).
Proof.
  split.
  - rewrite !shortenFullName_parts, trim_idem.
    destruct (split space (trim fullName)) as [|p0 parts] eqn:Hparts; [|done].
    by destruct (split_nonempty space (trim fullName)).
  - intros Hspace. rewrite shortenFullName_parts. by rewrite split_part.
Qed.

End Names.

(** ** The added properties on concrete inputs *)

Lemma mutateBatchAsync_calls_cover_items_witness :
  exists inv,
    mutateBatchAsync (fail_at [1%nat]) 2 6 [10; 20; 30; 40; 50]%nat [] = Some inv
    /\ concat (calls inv) = [10; 20; 30; 40; 50]%nat
    /\ Z.of_nat (length (calls inv)) = 3.
Proof.
  destruct (mutateBatchAsync_calls_cover_items (fail_at [1%nat]) 2 6
              [10; 20; 30; 40; 50]%nat [] ltac:(lia) ltac:(simpl; lia))
    as (inv & Hrun & Hcat & Hcount & _).
  exists inv. split; [exact Hrun|]. split; [exact Hcat | exact Hcount].
Defined.

Lemma mutateBatchAsync_pending_witness :
  exists inv,
    mutateBatchAsync (fail_at [0%nat]) 1 4 [10; 20; 30]%nat [0; 1]%nat = Some inv
    /\ completion inv = None.
Proof.
  apply (mutateBatchAsync_pending (fail_at [0%nat]) 1 4 [10; 20; 30]%nat [0; 1]%nat
           [[10]; [20]; [30]]%nat 2 eq_refl ltac:(simpl; lia)).
  rewrite !elem_of_cons, elem_of_nil. lia.
Defined.

Lemma mutateBatchAsync_progress_counts_settlements_witness :
  exists inv,
    mutateBatchAsync (fail_at [0%nat]) 1 4 [10; 20; 30]%nat [2; 0]%nat = Some inv
    /\ progress_values inv = [0; 33; 67].
Proof.
  destruct (mutateBatchAsync_progress_counts_settlements (fail_at [0%nat]) 1 4
              [10; 20; 30]%nat [2; 0]%nat [[10]; [20]; [30]]%nat eq_refl
              ltac:(discriminate)
              ltac:(repeat constructor; simpl; lia))
    as (inv & Hrun & Hvalues).
  exists inv. split; [exact Hrun|]. rewrite Hvalues. vm_compute. reflexivity.
Defined.

Lemma mutateBatchAsync_all_fulfilled_witness :
  exists inv r,
    mutateBatchAsync (fail_at []) 2 4 [10; 20; 30]%nat [1; 0]%nat = Some inv
    /\ completion inv = Some (Returned r)
    /\ errors r = []
    /\ completedBatches r = 2%nat.
Proof.
  destruct (mutateBatchAsync_all_fulfilled (fail_at []) 2 4 [10; 20; 30]%nat
              [1; 0]%nat [[10; 20]; [30]]%nat eq_refl (perm_swap 0%nat 1%nat []))
    as (inv & r & Hrun & Hdone & Herrors & _ & Htotal & Hcompleted).
  - intros i b _. by eexists.
  - exists inv, r. split; [exact Hrun|]. split; [exact Hdone|]. split; [exact Herrors|].
    rewrite Hcompleted. exact Htotal.
Defined.

Lemma mutateBatchAsync_totalBatches_witness :
  exists inv,
    mutateBatchAsync (fail_at [1%nat]) 2 4 [10; 20; 30]%nat [1; 0]%nat = Some inv
    /\ forall r, completion inv = Some (Returned r) -> Z.of_nat (totalBatches r) = 2.
Proof.
  destruct (mutateBatchAsync_totalBatches (fail_at [1%nat]) 2 4 [10; 20; 30]%nat
              [1; 0]%nat [[10; 20]; [30]]%nat ltac:(lia) eq_refl
              (perm_swap 0%nat 1%nat []))
    as (inv & Hrun & Htotal).
  exists inv. split; [exact Hrun|]. intros r Hr. exact (proj1 (Htotal r Hr)).
Defined.

Lemma useBatchQuery_queries_cover_items_witness :
  exists res options,
    useBatchQuery (fun _ => []) [JsString "users"] 2 4
      [JsNumber 1; JsNumber 2; JsNumber 3] = Some res
    /\ concat (queryFn_batch <$> options) = [JsNumber 1; JsNumber 2; JsNumber 3]
    /\ Z.of_nat (length options) = 2.
Proof.
  destruct (useBatchQuery_queries_cover_items (fun _ => []) [JsString "users"] 2 4
              [JsNumber 1; JsNumber 2; JsNumber 3] ltac:(lia) ltac:(simpl; lia))
    as (res & options & Hrun & _ & Hcat & Hcount & _).
  exists res, options. split; [exact Hrun|]. split; [exact Hcat | exact Hcount].
Defined.

Lemma useBatchQuery_progress_range_witness :
  exists res,
    useBatchQuery
      (fun _ => [query_succeeded (JsString "ok"); query_failed (error_of_batch 1)])
      [JsString "users"] 1 3 [JsNumber 1; JsNumber 2] = Some res
    /\ progress res = 100.
Proof.
  destruct (useBatchQuery_progress_range
              (fun _ => [query_succeeded (JsString "ok"); query_failed (error_of_batch 1)])
              [JsString "users"] 1 3 [JsNumber 1; JsNumber 2]
              [[JsNumber 1]; [JsNumber 2]] eq_refl eq_refl)
    as (res & Hrun & _ & _ & Hfull).
  exists res. split; [exact Hrun|]. apply Hfull; [discriminate|].
  intros q Hq. cbn in Hq. rewrite !elem_of_cons, elem_of_nil in Hq.
  destruct Hq as [->|[->|[]]]; [left|right]; by eexists.
Defined.

Lemma useBatchQuery_empty_witness :
  exists res,
    useBatchQuery (all_queries query_pending)
      [JsString "users"] 500 1 [] = Some res
    /\ isSuccess res = true /\ progress res = 0.
Proof.
  eexists. split.
  - apply (useBatchQuery_empty (all_queries query_pending)
             [JsString "users"] 500 0 eq_refl).
  - split; reflexivity.
Defined.

Lemma useBatchQuery_success_consistent_witness :
  exists res,
    useBatchQuery (all_queries (query_succeeded (JsString "ok")))
      [JsString "users"] 1 3 [JsNumber 1; JsNumber 2] = Some res
    /\ error res = None /\ errors (result_data res) = [].
Proof.
  destruct (useBatchQuery_success_consistent
              (all_queries (query_succeeded (JsString "ok")))
              [JsString "users"] 1 3 [JsNumber 1; JsNumber 2]
              [[JsNumber 1]; [JsNumber 2]] eq_refl)
    as (res & Hrun & Hclean).
  - intros q Hq _. cbn in Hq. rewrite !elem_of_cons, elem_of_nil in Hq.
    by destruct Hq as [->|[->|[]]].
  - exists res. split; [exact Hrun|].
    assert (Hsuccess : isSuccess res = true).
    { vm_compute in Hrun. by injection Hrun as <-. }
    destruct (Hclean Hsuccess) as (_ & Herror & Herrors & _).
    split; [exact Herror | exact Herrors].
Defined.

Lemma useBatchQuery_all_succeeded_witness :
  exists res,
    useBatchQuery (all_queries (query_succeeded (JsString "ok")))
      [JsString "users"] 1 3 [JsNumber 1; JsNumber 2] = Some res
    /\ data (result_data res) = [JsString "ok"; JsString "ok"]
    /\ progress res = 100.
Proof.
  destruct (useBatchQuery_all_succeeded
              (all_queries (query_succeeded (JsString "ok")))
              [JsString "users"] 1 3 [JsNumber 1; JsNumber 2]
              [[JsNumber 1]; [JsNumber 2]] eq_refl eq_refl)
    as (res & Hrun & Hdata & _ & _ & _ & Hfull).
  - intros q Hq. cbn in Hq. rewrite !elem_of_cons, elem_of_nil in Hq.
    by destruct Hq as [->|[->|[]]].
  - exists res. split; [exact Hrun|]. split; [exact Hdata|].
    apply Hfull. discriminate.
Defined.

Lemma useBatchQuery_shared_prefix_witness :
  exists options,
    batchQueries [JsString "users"]
      [[JsNumber 1; JsNumber 2]; [JsNumber 3; JsNumber 4]; [JsNumber 5]] !! 1%nat
    = Some options
    /\ batchQueries [JsString "users"]
         [[JsNumber 1; JsNumber 2]; [JsNumber 3; JsNumber 4]] !! 1%nat
       = Some options.
Proof.
  destruct (useBatchQuery_shared_prefix [JsString "users"] 2 6 5
              [JsNumber 1; JsNumber 2; JsNumber 3; JsNumber 4] [JsNumber 5] []
              [[JsNumber 1; JsNumber 2]; [JsNumber 3; JsNumber 4]; [JsNumber 5]]
              [[JsNumber 1; JsNumber 2]; [JsNumber 3; JsNumber 4]]
              1 ltac:(lia) eq_refl eq_refl ltac:(simpl; lia))
    as (options & Hlarge & Hsmall & _).
  exists options. split; [exact Hlarge | exact Hsmall].
Defined.

Lemma parse_ids_clean_witness :
  "b"%string <> ""%string /\ trim "b" = "b"%string /\ ~ In line_feed (chars "b").
Proof.
  apply (parse_ids_clean
           (String.append "a" (String line_feed (String.append " b " (String line_feed "")))) "b").
  vm_compute. tauto.
Defined.

Lemma handleLoadUsers_blank_witness :
  handleLoadUsers 5 (String.append "  " (String line_feed " ")) [] = Some (None, EnterIds).
Proof.
  apply (handleLoadUsers_blank 5 (String.append "  " (String line_feed " ")) []).
  intros c Hc. vm_compute in Hc. by destruct Hc as [<-|[<-|[<-|[<-|[]]]]].
Defined.

Lemma parse_ids_join_witness :
  parse_ids (String.concat (String line_feed "") ["u1"; "u 2"; "u3"]%string)
  = ["u1"; "u 2"; "u3"]%string.
Proof.
  apply (parse_ids_join ["u1"; "u 2"; "u3"]%string).
  repeat constructor; try done; vm_compute; intuition discriminate.
Defined.

Lemma handleLoadUsers_loads_all_witness :
  exists allUsers,
    handleLoadUsers 3 (String.append "a" (String line_feed "b")) [0%nat]
    = Some (Some allUsers, LoadedAll 2 1)
    /\ user_id <$> allUsers = ["a"; "b"]%string.
Proof.
  destruct (handleLoadUsers_loads_all 3 (String.append "a" (String line_feed "b")) [0%nat]
              ltac:(discriminate) ltac:(vm_compute; lia) (Permutation_refl _))
    as (allUsers & Hload & Hids & _).
  exists allUsers. split; [exact Hload | exact Hids].
Defined.

Lemma generate_then_load_witness :
  exists allUsers,
    handleLoadUsers 4 (generateTestIds 3) [0%nat] = Some (Some allUsers, LoadedAll 3 1)
    /\ user_id <$> allUsers = ["user_1"; "user_2"; "user_3"]%string.
Proof.
  destruct (generate_then_load 4 3 [0%nat] ltac:(lia) (Permutation_refl _))
    as (allUsers & Hload & Hids).
  exists allUsers. split; [exact Hload | exact Hids].
Defined.

Lemma useUsersBatch_request_limit_witness :
  exists inv,
    useUsersBatch_mutateBatchAsync 3 ["a"; "b"]%string [] = Some inv
    /\ concat (calls inv) = ["a"; "b"]%string.
Proof.
  destruct (useUsersBatch_request_limit 3 ["a"; "b"]%string [] ltac:(simpl; lia))
    as (inv & Hrun & Hcat & _).
  exists inv. split; [exact Hrun | exact Hcat].
Defined.

